(** * LAYERS: geo helpers, anti-cheat evaluation and the location store

    A shallow embedding of the location code of the LAYERS mobile client:

    - [calculateDistance], [isWithinRadius] and [getDistanceTo] from the
      [useLocation] hook (haversine distance and the geo-lock test);
    - the [ProximityGuard] operations [chunkOf] and [evaluateReport], whose
      implementation is part of the backend and is modelled from the
      specification;
    - the Zustand location store ([locationStore.ts]) as a transition system
      whose steps are the [set] calls of the store, with its position
      watcher, and the start-up and display code of the hook;
    - the authentication store ([authStore.ts]) with the secure storage it
      writes to, the form validation rules ([validation.ts]), the error
      classification ([errorHandler.ts]) and the token refresh queue of the
      API client ([api.ts]).

    JavaScript numbers are IEEE-754 doubles.  The embedding idealises them as
    real numbers: rounding, NaN and the infinities are outside the model, and
    every statement about a distance is a statement about the formula the
    code evaluates.  Where rounding decides which string is displayed, in
    the division of [formatDistance], the division is a parameter with the
    error bound of the doubles. *)

From Stdlib Require Import Reals Lra Lia ZArith List Bool String Psatz.
From Stdlib Require Import Ascii DecimalString.
From Stdlib Require Import Machin.
Import ListNotations.

Open Scope R_scope.

(** ** The [Math] primitives the code uses *)

Module JSMath.

(** [x <= y] and [x < y] on numbers, as booleans. *)
Definition Rleb (x y : R) : bool := if Rle_dec x y then true else false.
Definition Rltb (x y : R) : bool := if Rlt_dec x y then true else false.

(** [Math.atan2(y, x)]: the angle of the point [(x, y)], in [(-PI, PI]]. *)
Definition Math_atan2 (y x : R) : R :=
  if Rlt_dec 0 x then atan (y / x)
  else if Rlt_dec x 0 then
    (if Rle_dec 0 y then atan (y / x) + PI else atan (y / x) - PI)
  else if Rlt_dec 0 y then PI / 2
  else if Rlt_dec y 0 then - (PI / 2)
  else 0.

(** [Math.floor]: rounding toward negative infinity. *)
Definition Math_floor (x : R) : Z := Zfloor x.

(** [Math.max]. *)
Definition Math_max (x y : R) : R := Rmax x y.

End JSMath.

Import JSMath.

(** ** Distance and geo-lock ([useLocation] hook) *)

Module Geo.

(** [interface Coordinates { latitude: number; longitude: number }] *)
Record Coordinates : Type := mkCoordinates {
  latitude : R;
  longitude : R
}.

(** [const R = 6371e3], the Earth's radius in metres. *)
Definition earthRadius : R := 6371000.

(** The haversine term [a] of [calculateDistance]. *)
Definition haversine (lat1 lon1 lat2 lon2 : R) : R :=
  let phi1 := (lat1 * PI) / 180 in
  let phi2 := (lat2 * PI) / 180 in
  let dphi := ((lat2 - lat1) * PI) / 180 in
  let dlam := ((lon2 - lon1) * PI) / 180 in
  sin (dphi / 2) * sin (dphi / 2) +
  cos phi1 * cos phi2 * sin (dlam / 2) * sin (dlam / 2).

(** [function calculateDistance(lat1, lon1, lat2, lon2): number] *)
Definition calculateDistance (lat1 lon1 lat2 lon2 : R) : R :=
  let a := haversine lat1 lon1 lat2 lon2 in
  let c := 2 * Math_atan2 (sqrt a) (sqrt (1 - a)) in
  earthRadius * c.

(** The two input-validation failures named by the specification. *)
Inductive GeoError : Type :=
| InvalidCoordinate
| InvalidRadius.

(** How a call completes: with a value, or by raising an error. *)
Inductive completion (A : Type) : Type :=
| Normal (v : A)
| Throw (e : GeoError).

Arguments Normal {A} v.
Arguments Throw {A} e.

Definition fails {A : Type} (r : completion A) (e : GeoError) : Prop :=
  r = Throw e.

Definition succeeds {A : Type} (r : completion A) : Prop :=
  exists v, r = Normal v.

(** [distanceMeters(a, b)]: [calculateDistance] applied to two coordinates,
    the way [getDistanceTo] and [isWithinRadius] call it.  The body of
    [calculateDistance] is arithmetic on numbers and contains no [throw]:
    the call always completes normally. *)
Definition distanceMeters (a b : Coordinates) : completion R :=
  Normal (calculateDistance (latitude a) (longitude a)
                            (latitude b) (longitude b)).

(** [isWithinRadius(targetLat, targetLng, radiusMeters): boolean] of the
    hook; [currentLocation] is the store's current location, [None] for
    [null]. *)
Definition isWithinRadius (currentLocation : option Coordinates)
    (targetLat targetLng radiusMeters : R) : completion bool :=
  match currentLocation with
  | None => Normal false
  | Some loc =>
      let distance :=
        calculateDistance (latitude loc) (longitude loc) targetLat targetLng in
      Normal (Rleb distance radiusMeters)
  end.

(** [getDistanceTo(targetLat, targetLng): number | null] of the hook. *)
Definition getDistanceTo (currentLocation : option Coordinates)
    (targetLat targetLng : R) : option R :=
  match currentLocation with
  | None => None
  | Some loc =>
      Some (calculateDistance (latitude loc) (longitude loc)
                              targetLat targetLng)
  end.

(** The distance on the sphere of radius [earthRadius] between two points
    given in degrees: the radius times the central angle, by the spherical
    law of cosines.  This is the reference the haversine result is compared
    with. *)
Definition centralCosine (lat1 lon1 lat2 lon2 : R) : R :=
  sin (lat1 * PI / 180) * sin (lat2 * PI / 180) +
  cos (lat1 * PI / 180) * cos (lat2 * PI / 180) *
  cos ((lon2 - lon1) * PI / 180).

Definition greatCircleDistance (a b : Coordinates) : R :=
  earthRadius *
  acos (centralCosine (latitude a) (longitude a) (latitude b) (longitude b)).

(** The point of the equator [meters] east of longitude 0. *)
Definition eastOf (meters : R) : Coordinates :=
  {| latitude := 0; longitude := meters * 180 / (earthRadius * PI) |}.

End Geo.

Import Geo.

(** ** ProximityGuard: fog-of-war chunks and the anti-cheat evaluator *)

Module ProximityGuard.

(** Latitude in [[-90, 90]] and longitude in [[-180, 180]]. *)
Definition validLatitude (lat : R) : bool :=
  Rleb (-90) lat && Rleb lat 90.

Definition validLongitude (lon : R) : bool :=
  Rleb (-180) lon && Rleb lon 180.

Definition validCoordinate (c : Coordinates) : bool :=
  validLatitude (latitude c) && validLongitude (longitude c).

(** [FogChunk]: the key of a map cell. *)
Record FogChunk : Type := mkFogChunk {
  chunk_x : Z;
  chunk_y : Z
}.

Definition lonDegPerChunk (chunkSizeMeters originLatitudeDeg : R) : R :=
  chunkSizeMeters / (111320 * cos (originLatitudeDeg * PI / 180)).

Definition latDegPerChunk (chunkSizeMeters : R) : R :=
  chunkSizeMeters / 110540.

(** Modelled from the spec: [chunkOf], the fog-of-war grid function of the
    backend, which is not among the sources.  The chunk index is the floor
    of the coordinate divided by the degrees one chunk spans; a coordinate
    or an origin latitude out of range fails with [InvalidCoordinate]. *)
Definition chunkOf (coord : Coordinates)
    (chunkSizeMeters originLatitudeDeg : R) : completion FogChunk :=
  if validCoordinate coord && validLatitude originLatitudeDeg then
    Normal
      {| chunk_x :=
           Math_floor (longitude coord /
                       lonDegPerChunk chunkSizeMeters originLatitudeDeg);
         chunk_y :=
           Math_floor (latitude coord / latDegPerChunk chunkSizeMeters) |}
  else Throw InvalidCoordinate.

(** [int(x)] of the documented grid math: conversion to an integer by
    rounding toward zero. *)
Definition int (x : R) : Z := if Rle_dec 0 x then Zfloor x else Zceil x.

(** The grid math as [API_DOCUMENTATION.md] gives it for the latitude of
    Ho Chi Minh City: [chunk_x = int(longitude / 0.000917)] and
    [chunk_y = int(latitude / 0.0009)]. *)
Definition documentedChunk (c : Coordinates) : FogChunk :=
  {| chunk_x := int (longitude c / 0.000917);
     chunk_y := int (latitude c / 0.0009) |}.

(** [LocationReport]; [timestamp] is in seconds. *)
Record LocationReport : Type := mkLocationReport {
  coordinate : Coordinates;
  timestamp : R;
  accuracy_meters : R;
  is_mocked : bool;
  reporter_id : string
}.

Inductive ReasonCode : Type :=
| MOCKED
| IMPOSSIBLE_SPEED
| RATE_LIMIT_EXCEEDED
| TOO_CLOSE_TO_EXISTING.

Definition ReasonCode_eq_dec (x y : ReasonCode) : {x = y} + {x <> y}.
Proof. decide equality. Defined.

(** [AntiCheatVerdict]; the set of reasons is kept as a duplicate-free list
    in the order of the checks. *)
Record AntiCheatVerdict : Type := mkAntiCheatVerdict {
  flagged : bool;
  reasons : list ReasonCode
}.

(** The tunable policy constants of the evaluator. *)
Record AntiCheatConfig : Type := mkAntiCheatConfig {
  maxSpeed : R;
  epsilon : R;
  dailyCap : Z;
  minPlacementDistance : R
}.

(** The documented defaults: 5 km/s, 3 reports a day, 20 m between
    placements.  The specification leaves [epsilon] open. *)
Definition defaultConfig (eps : R) : AntiCheatConfig :=
  {| maxSpeed := 5000;
     epsilon := eps;
     dailyCap := 3;
     minPlacementDistance := 20 |}.

Definition elapsedSeconds (prev report : LocationReport) : R :=
  timestamp report - timestamp prev.

(** A speed in metres per second, or infinite. *)
Inductive Speed : Type :=
| Finite (metresPerSecond : R)
| Infinite.

Definition Reqb (x y : R) : bool := if Req_dec_T x y then true else false.

Definition exceeds (s : Speed) (limit : R) : bool :=
  match s with
  | Finite v => Rltb limit v
  | Infinite => true
  end.

(** Modelled from the spec: the speed between two reports, the distance
    divided by [max(elapsedSeconds, epsilon)]; as its edge case, a nonzero
    movement with [elapsedSeconds] equal to 0 is an infinite speed.  A
    positive [epsilon] keeps the divisor positive, and the facts about the
    quotient assume one. *)
Definition speedOf (cfg : AntiCheatConfig) (prev report : LocationReport)
    : Speed :=
  let d := calculateDistance
             (latitude (coordinate prev)) (longitude (coordinate prev))
             (latitude (coordinate report)) (longitude (coordinate report)) in
  let dt := elapsedSeconds prev report in
  if Reqb dt 0 && Rltb 0 d then Infinite
  else Finite (d / Math_max dt (epsilon cfg)).

(** The four checks, each a function of the inputs alone. *)
Definition mockedCheck (report : LocationReport) : bool :=
  is_mocked report.

Definition speedCheck (cfg : AntiCheatConfig) (report : LocationReport)
    (previousReport : option LocationReport) : bool :=
  match previousReport with
  | None => false
  | Some prev => exceeds (speedOf cfg prev report) (maxSpeed cfg)
  end.

Definition rateCheck (cfg : AntiCheatConfig) (recentReportsToday : Z) : bool :=
  (dailyCap cfg <=? recentReportsToday)%Z.

Definition tooClose (cfg : AntiCheatConfig) (here placement : Coordinates) : bool :=
  Rleb (calculateDistance (latitude placement) (longitude placement)
                          (latitude here) (longitude here))
       (minPlacementDistance cfg).

Definition proximityCheck (cfg : AntiCheatConfig) (report : LocationReport)
    (recentArtifactPlacements : list Coordinates) : bool :=
  existsb (tooClose cfg (coordinate report)) recentArtifactPlacements.

Definition when (b : bool) (r : ReasonCode) : list ReasonCode :=
  if b then [r] else [].

Definition isEmpty {A : Type} (l : list A) : bool :=
  match l with
  | [] => true
  | _ :: _ => false
  end.

(** Every coordinate an evaluation receives. *)
Definition reportCoordinates (report : LocationReport)
    (previousReport : option LocationReport)
    (recentArtifactPlacements : list Coordinates) : list Coordinates :=
  coordinate report
  :: match previousReport with
     | None => []
     | Some prev => [coordinate prev]
     end
  ++ recentArtifactPlacements.

Definition reportInputsValid (report : LocationReport)
    (previousReport : option LocationReport)
    (recentArtifactPlacements : list Coordinates) : bool :=
  forallb validCoordinate
    (reportCoordinates report previousReport recentArtifactPlacements).

(** The reasons of a report: the four checks in order, each contributing
    its reason when it triggers. *)
Definition reasonsOf (cfg : AntiCheatConfig) (report : LocationReport)
    (previousReport : option LocationReport) (recentReportsToday : Z)
    (recentArtifactPlacements : list Coordinates) : list ReasonCode :=
  when (mockedCheck report) MOCKED
  ++ when (speedCheck cfg report previousReport) IMPOSSIBLE_SPEED
  ++ when (rateCheck cfg recentReportsToday) RATE_LIMIT_EXCEEDED
  ++ when (proximityCheck cfg report recentArtifactPlacements)
          TOO_CLOSE_TO_EXISTING.

(** Modelled from the spec: [evaluateReport], the anti-cheat evaluator of
    the backend, which is not among the sources.  Every check is evaluated
    and every triggered reason is reported; [flagged] says whether any
    reason was; a coordinate out of range fails with [InvalidCoordinate]. *)
Definition evaluateReport (cfg : AntiCheatConfig) (report : LocationReport)
    (previousReport : option LocationReport) (recentReportsToday : Z)
    (recentArtifactPlacements : list Coordinates)
    : completion AntiCheatVerdict :=
  if reportInputsValid report previousReport recentArtifactPlacements then
    let rs := reasonsOf cfg report previousReport recentReportsToday
                        recentArtifactPlacements in
    Normal {| flagged := negb (isEmpty rs); reasons := rs |}
  else Throw InvalidCoordinate.

(** The condition under which each reason is reported. *)
Definition triggered (cfg : AntiCheatConfig) (report : LocationReport)
    (previousReport : option LocationReport) (recentReportsToday : Z)
    (recentArtifactPlacements : list Coordinates) (r : ReasonCode) : bool :=
  match r with
  | MOCKED => mockedCheck report
  | IMPOSSIBLE_SPEED => speedCheck cfg report previousReport
  | RATE_LIMIT_EXCEEDED => rateCheck cfg recentReportsToday
  | TOO_CLOSE_TO_EXISTING =>
      proximityCheck cfg report recentArtifactPlacements
  end.

(** The cell [(i, j)] of the grid: the coordinates whose longitude and
    latitude lie in the half-open intervals the chunk spans. *)
Definition inCell (chunkSizeMeters originLatitudeDeg : R) (i j : Z)
    (c : Coordinates) : Prop :=
  IZR i * lonDegPerChunk chunkSizeMeters originLatitudeDeg <= longitude c
    < (IZR i + 1) * lonDegPerChunk chunkSizeMeters originLatitudeDeg /\
  IZR j * latDegPerChunk chunkSizeMeters <= latitude c
    < (IZR j + 1) * latDegPerChunk chunkSizeMeters.

(** The separation of two longitudes in metres, in the locally linear
    metric of the grid at the origin latitude. *)
Definition lonSeparationMeters (originLatitudeDeg lon1 lon2 : R) : R :=
  Rabs (lon2 - lon1) * (111320 * cos (originLatitudeDeg * PI / 180)).

(** The reasons of a completed evaluation include [r]. *)
Definition includes (res : completion AntiCheatVerdict) (r : ReasonCode) : Prop :=
  exists v, res = Normal v /\ In r (reasons v).

End ProximityGuard.

Import ProximityGuard.

(** ** The location store ([locationStore.ts]) *)

Module LocationStore.

(** [Location.PermissionStatus] of expo-location. *)
Inductive PermissionStatus : Type :=
| granted
| denied
| undetermined.

Definition isGranted (p : PermissionStatus) : bool :=
  match p with
  | granted => true
  | _ => false
  end.

(** The data fields of [LocationState]; [None] stands for [null]. *)
Record LocationState : Type := mkLocationState {
  currentLocation : option Coordinates;
  lastKnownLocation : option Coordinates;
  permissionStatus : option PermissionStatus;
  isLoading : bool;
  error : option string;
  isWatching : bool;
  accuracy : option R;
  heading : option R;
  speed : option R
}.

Definition initialState : LocationState :=
  {| currentLocation := None;
     lastKnownLocation := None;
     permissionStatus := None;
     isLoading := false;
     error := None;
     isWatching := false;
     accuracy := None;
     heading := None;
     speed := None |}.

(** [Partial<LocationState>], the argument of Zustand's [set]: a field that
    is absent is [None], a field that is present carries its new value. *)
Record Partial : Type := mkPartial {
  p_currentLocation : option (option Coordinates);
  p_lastKnownLocation : option (option Coordinates);
  p_permissionStatus : option (option PermissionStatus);
  p_isLoading : option bool;
  p_error : option (option string);
  p_isWatching : option bool;
  p_accuracy : option (option R);
  p_heading : option (option R);
  p_speed : option (option R)
}.

Definition noChange : Partial :=
  {| p_currentLocation := None;
     p_lastKnownLocation := None;
     p_permissionStatus := None;
     p_isLoading := None;
     p_error := None;
     p_isWatching := None;
     p_accuracy := None;
     p_heading := None;
     p_speed := None |}.

Definition merge {A : Type} (old : A) (new : option A) : A :=
  match new with
  | Some v => v
  | None => old
  end.

(** [set(partial)]: a shallow merge into the current state. *)
Definition set (p : Partial) (s : LocationState) : LocationState :=
  {| currentLocation := merge (currentLocation s) (p_currentLocation p);
     lastKnownLocation := merge (lastKnownLocation s) (p_lastKnownLocation p);
     permissionStatus := merge (permissionStatus s) (p_permissionStatus p);
     isLoading := merge (isLoading s) (p_isLoading p);
     error := merge (error s) (p_error p);
     isWatching := merge (isWatching s) (p_isWatching p);
     accuracy := merge (accuracy s) (p_accuracy p);
     heading := merge (heading s) (p_heading p);
     speed := merge (speed s) (p_speed p) |}.

(** [location.coords] of an expo [LocationObject]. *)
Record LocationObject : Type := mkLocationObject {
  coords_latitude : R;
  coords_longitude : R;
  coords_accuracy : option R;
  coords_heading : option R;
  coords_speed : option R
}.

Definition coordsOf (location : LocationObject) : Coordinates :=
  {| latitude := coords_latitude location;
     longitude := coords_longitude location |}.

(** The [set] calls of the store, one constructor per call site. *)
Inductive StoreUpdate : Type :=
| PermissionKnown (status : PermissionStatus)
| PermissionDenied
| PermissionFailed
| LoadingStarted
| LocationFetched (location : LocationObject)
| LocationFailed (message : string)
| WatchUpdate (location : LocationObject)
| WatchStarted
| WatchFailed
| WatchStopped
| LocationSet (location : Coordinates)
| ErrorCleared
| StoreReset.

Open Scope string_scope.

(** The error text chosen in the [catch] of [getCurrentLocation]. *)
Definition locationErrorMessage (code : option string) : string :=
  match code with
  | Some c =>
      if String.eqb c "E_LOCATION_SETTINGS_UNSATISFIED" then
        "Please enable location services in your device settings"
      else if String.eqb c "E_LOCATION_TIMEOUT" then
        "Location request timed out. Please try again."
      else "Failed to get current location"
  | None => "Failed to get current location"
  end.

(** The object literal each call site passes to [set]. *)
Definition patchOf (u : StoreUpdate) : Partial :=
  match u with
  | PermissionKnown status =>
      {| p_currentLocation := None; p_lastKnownLocation := None;
         p_permissionStatus := Some (Some status);
         p_isLoading := None; p_error := None; p_isWatching := None;
         p_accuracy := None; p_heading := None; p_speed := None |}
  | PermissionDenied =>
      {| p_currentLocation := None; p_lastKnownLocation := None;
         p_permissionStatus := None; p_isLoading := None;
         p_error := Some (Some "Location permission denied");
         p_isWatching := None;
         p_accuracy := None; p_heading := None; p_speed := None |}
  | PermissionFailed =>
      {| p_currentLocation := None; p_lastKnownLocation := None;
         p_permissionStatus := None; p_isLoading := None;
         p_error := Some (Some "Failed to request location permission");
         p_isWatching := None;
         p_accuracy := None; p_heading := None; p_speed := None |}
  | LoadingStarted =>
      {| p_currentLocation := None; p_lastKnownLocation := None;
         p_permissionStatus := None;
         p_isLoading := Some true; p_error := Some None;
         p_isWatching := None;
         p_accuracy := None; p_heading := None; p_speed := None |}
  | LocationFetched location =>
      {| p_currentLocation := Some (Some (coordsOf location));
         p_lastKnownLocation := Some (Some (coordsOf location));
         p_permissionStatus := None;
         p_isLoading := Some false; p_error := Some None;
         p_isWatching := None;
         p_accuracy := Some (coords_accuracy location);
         p_heading := Some (coords_heading location);
         p_speed := Some (coords_speed location) |}
  | LocationFailed message =>
      {| p_currentLocation := None; p_lastKnownLocation := None;
         p_permissionStatus := None;
         p_isLoading := Some false; p_error := Some (Some message);
         p_isWatching := None;
         p_accuracy := None; p_heading := None; p_speed := None |}
  | WatchUpdate location =>
      {| p_currentLocation := Some (Some (coordsOf location));
         p_lastKnownLocation := Some (Some (coordsOf location));
         p_permissionStatus := None;
         p_isLoading := None; p_error := Some None;
         p_isWatching := None;
         p_accuracy := Some (coords_accuracy location);
         p_heading := Some (coords_heading location);
         p_speed := Some (coords_speed location) |}
  | WatchStarted =>
      {| p_currentLocation := None; p_lastKnownLocation := None;
         p_permissionStatus := None;
         p_isLoading := None; p_error := Some None;
         p_isWatching := Some true;
         p_accuracy := None; p_heading := None; p_speed := None |}
  | WatchFailed =>
      {| p_currentLocation := None; p_lastKnownLocation := None;
         p_permissionStatus := None; p_isLoading := None;
         p_error := Some (Some "Failed to start location tracking");
         p_isWatching := None;
         p_accuracy := None; p_heading := None; p_speed := None |}
  | WatchStopped =>
      {| p_currentLocation := None; p_lastKnownLocation := None;
         p_permissionStatus := None;
         p_isLoading := None; p_error := None;
         p_isWatching := Some false;
         p_accuracy := None; p_heading := None; p_speed := None |}
  | LocationSet location =>
      {| p_currentLocation := Some (Some location);
         p_lastKnownLocation := Some (Some location);
         p_permissionStatus := None;
         p_isLoading := None; p_error := None; p_isWatching := None;
         p_accuracy := None; p_heading := None; p_speed := None |}
  | ErrorCleared =>
      {| p_currentLocation := None; p_lastKnownLocation := None;
         p_permissionStatus := None;
         p_isLoading := None; p_error := Some None; p_isWatching := None;
         p_accuracy := None; p_heading := None; p_speed := None |}
  | StoreReset =>
      {| p_currentLocation := Some None;
         p_lastKnownLocation := Some None;
         p_permissionStatus := Some None;
         p_isLoading := Some false; p_error := Some None;
         p_isWatching := Some false;
         p_accuracy := Some None; p_heading := Some None;
         p_speed := Some None |}
  end.

Close Scope string_scope.

(** One step of the store: a [set] call with the literal of its call site. *)
Definition apply (u : StoreUpdate) (s : LocationState) : LocationState :=
  set (patchOf u) s.

Definition run (us : list StoreUpdate) (s : LocationState) : LocationState :=
  fold_left (fun acc u => apply u acc) us s.

(** The states the store can be in: any sequence of [set] calls from the
    initial state.  Calls of different asynchronous actions may interleave;
    every interleaving is such a sequence. *)
Definition reachable (s : LocationState) : Prop :=
  exists us, s = run us initialState.

(** What an awaited platform call answers: a value, or a rejection with an
    optional error code. *)
Inductive reply (A : Type) : Type :=
| Resolved (a : A)
| Rejected (code : option string).

Arguments Resolved {A} a.
Arguments Rejected {A} code.

(** The actions, as the [set] calls they issue and the value they return.
    [state] is the snapshot taken by [get()] on entry; the replies are
    those of the awaited [Location.*] calls, in program order. *)

Definition requestPermission
    (existing requested : reply PermissionStatus)
    : list StoreUpdate * bool :=
  match existing with
  | Rejected _ => ([PermissionFailed], false)
  | Resolved existingStatus =>
      if isGranted existingStatus then
        ([PermissionKnown existingStatus], true)
      else
        match requested with
        | Rejected _ => ([PermissionFailed], false)
        | Resolved status =>
            if isGranted status then ([PermissionKnown status], true)
            else ([PermissionKnown status; PermissionDenied], false)
        end
  end.

Definition permissionGranted (state : LocationState) : bool :=
  match permissionStatus state with
  | Some p => isGranted p
  | None => false
  end.

Definition getCurrentLocation (state : LocationState)
    (existing requested : reply PermissionStatus)
    (position : reply LocationObject)
    : list StoreUpdate * option Coordinates :=
  let fetch :=
    match position with
    | Resolved location =>
        ([LoadingStarted; LocationFetched location],
         Some (coordsOf location))
    | Rejected code =>
        ([LoadingStarted; LocationFailed (locationErrorMessage code)], None)
    end in
  if permissionGranted state then fetch
  else
    let (asked, ok) := requestPermission existing requested in
    if ok then (asked ++ fst fetch, snd fetch) else (asked, None).

Definition watchLocation (state : LocationState)
    (existing requested : reply PermissionStatus)
    (subscribed : reply unit) : list StoreUpdate :=
  let start :=
    match subscribed with
    | Resolved _ => [WatchStarted]
    | Rejected _ => [WatchFailed]
    end in
  if isWatching state then []
  else if permissionGranted state then start
  else
    let (asked, ok) := requestPermission existing requested in
    if ok then asked ++ start else asked.

Definition stopWatching : list StoreUpdate := [WatchStopped].

Definition setLocation (location : Coordinates) : list StoreUpdate :=
  [LocationSet location].

Definition clearError : list StoreUpdate := [ErrorCleared].

Definition reset : list StoreUpdate := [StoreReset].

(** The invariant of the store. *)
Definition locationsAgree (s : LocationState) : Prop :=
  currentLocation s = lastKnownLocation s.

(** The updates that write a location field. *)
Definition writesLocation (u : StoreUpdate) : Prop :=
  p_currentLocation (patchOf u) <> None \/
  p_lastKnownLocation (patchOf u) <> None.

(** An update writes both location fields, with one value, or neither. *)
Definition writesBothAlike (p : Partial) : Prop :=
  p_currentLocation p = p_lastKnownLocation p.

End LocationStore.

(** ** The [useLocation] hook: display and start-up *)

Module LocationHook.

Import LocationStore.






Section Doubles.

Variable divide : R -> R -> R.


End Doubles.

(** [UseLocationOptions], with the defaults applied. *)
Record UseLocationOptions : Type := mkUseLocationOptions {
  autoRequest : bool;
  autoWatch : bool;
  showDeniedAlert : bool
}.

Definition defaultOptions : UseLocationOptions :=
  {| autoRequest := true; autoWatch := false; showDeniedAlert := true |}.

(** What a run of a hook callback did: the [set] calls issued on the store,
    whether the permission alert was shown, and the new value of
    [hasRequestedRef.current]. *)
Record HookRun : Type := mkHookRun {
  updates : list StoreUpdate;
  alertShown : bool;
  hasRequested : bool
}.

(** The replies of the platform to one permission request. *)
Record PermissionReplies : Type := mkPermissionReplies {
  existing : reply PermissionStatus;
  requested : reply PermissionStatus
}.

(** [initializeLocation()].  The store actions run one after another, each
    reading the store as the previous one left it; [asked1], [asked2] and
    [asked3] are the platform's replies should [requestPermission],
    [getCurrentLocation] and [watchLocation] ask for permission. *)
Definition initializeLocation (options : UseLocationOptions)
    (hasRequestedRef : bool) (s : LocationState)
    (asked1 asked2 asked3 : PermissionReplies)
    (position : reply LocationObject) (subscribed : reply unit) : HookRun :=
  if hasRequestedRef then
    {| updates := []; alertShown := false; hasRequested := true |}
  else
    let (u1, ok) := requestPermission (existing asked1) (requested asked1) in
    if ok then
      let s1 := run u1 s in
      let u2 := fst (getCurrentLocation s1 (existing asked2) (requested asked2)
                                        position) in
      let s2 := run u2 s1 in
      let u3 := if autoWatch options
                then watchLocation s2 (existing asked3) (requested asked3)
                                   subscribed
                else [] in
      {| updates := u1 ++ u2 ++ u3; alertShown := false; hasRequested := true |}
    else
      {| updates := u1; alertShown := showDeniedAlert options;
         hasRequested := true |}.

(** [retry()]. *)
Definition retry (options : UseLocationOptions) (hasRequestedRef : bool)
    (s : LocationState) (asked1 asked2 : PermissionReplies)
    (position : reply LocationObject) : HookRun :=
  let u0 := clearError in
  let (u1, ok) := requestPermission (existing asked1) (requested asked1) in
  if ok then
    let s1 := run (u0 ++ u1) s in
    let u2 := fst (getCurrentLocation s1 (existing asked2) (requested asked2)
                                      position) in
    {| updates := u0 ++ u1 ++ u2; alertShown := false;
       hasRequested := hasRequestedRef |}
  else
    {| updates := u0 ++ u1; alertShown := showDeniedAlert options;
       hasRequested := hasRequestedRef |}.

End LocationHook.

(** ** The position watcher of the location store *)

Module Watcher.

Import LocationStore.

(** The store together with the module variable [locationSubscription] and
    the platform's side: the subscriptions that currently deliver
    positions, and the next fresh subscription. *)
Record World : Type := mkWorld {
  store : LocationState;
  locationSubscription : option nat;
  active : list nat;
  nextId : nat
}.

Definition initialWorld : World :=
  {| store := initialState; locationSubscription := None;
     active := []; nextId := 0 |}.

(** [subscription.remove()]: the subscription stops delivering. *)
Definition removeSubscription (handle : option nat) (l : list nat) : list nat :=
  match handle with
  | None => l
  | Some h => List.remove Nat.eq_dec h l
  end.

Definition withStore (w : World) (us : list StoreUpdate) : World :=
  {| store := run us (store w);
     locationSubscription := locationSubscription w;
     active := active w;
     nextId := nextId w |}.

(** What can happen to the store: its actions, each run to completion with
    the platform's replies, and the delivery of a position to the callback
    of a live subscription. *)
Inductive Action : Type :=
| DoRequestPermission (existing requested : reply PermissionStatus)
| DoGetCurrentLocation (existing requested : reply PermissionStatus)
                       (position : reply LocationObject)
| DoWatchLocation (existing requested : reply PermissionStatus)
                  (subscribed : reply unit)
| DoStopWatching
| DoSetLocation (location : Coordinates)
| DoClearError
| DoReset
| Deliver (subscription : nat) (location : LocationObject).

(** The [try] block of [watchLocation]: drop the old subscription, then
    subscribe; on success the new subscription is stored and the store is
    told, on failure only the error is recorded. *)
Definition subscribe (subscribed : reply unit) (w : World) : World :=
  let remaining := removeSubscription (locationSubscription w) (active w) in
  match subscribed with
  | Resolved _ =>
      {| store := run [WatchStarted] (store w);
         locationSubscription := Some (nextId w);
         active := nextId w :: remaining;
         nextId := S (nextId w) |}
  | Rejected _ =>
      {| store := run [WatchFailed] (store w);
         locationSubscription := locationSubscription w;
         active := remaining;
         nextId := nextId w |}
  end.

(** [stopWatching] and [reset] share the removal of the subscription. *)
Definition unsubscribe (us : list StoreUpdate) (w : World) : World :=
  {| store := run us (store w);
     locationSubscription := None;
     active := removeSubscription (locationSubscription w) (active w);
     nextId := nextId w |}.

Definition exec (a : Action) (w : World) : World :=
  match a with
  | DoRequestPermission existing requested =>
      withStore w (fst (requestPermission existing requested))
  | DoGetCurrentLocation existing requested position =>
      withStore w (fst (getCurrentLocation (store w) existing requested position))
  | DoWatchLocation existing requested subscribed =>
      if isWatching (store w) then w
      else if permissionGranted (store w) then subscribe subscribed w
      else
        let (asked, ok) := requestPermission existing requested in
        if ok then subscribe subscribed (withStore w asked)
        else withStore w asked
  | DoStopWatching => unsubscribe stopWatching w
  | DoSetLocation location => withStore w (setLocation location)
  | DoClearError => withStore w clearError
  | DoReset => unsubscribe reset w
  | Deliver subscription location =>
      if existsb (Nat.eqb subscription) (active w)
      then withStore w [WatchUpdate location]
      else w
  end.

Definition execAll (l : list Action) (w : World) : World :=
  fold_left (fun acc a => exec a acc) l w.

Definition reachableWorld (w : World) : Prop :=
  exists l, w = execAll l initialWorld.

(** At most one subscription is live, it is the stored one, and
    [isWatching] says whether there is one. *)
Definition watcherConsistent (w : World) : Prop :=
  (active w = [] /\ isWatching (store w) = false) \/
  (exists h, active w = [h] /\ locationSubscription w = Some h /\
             isWatching (store w) = true).

End Watcher.

(** ** The authentication store ([authStore.ts]) *)

Module AuthStore.

Inductive Layer : Type := LIGHT | SHADOW.

Inductive Role : Type := USER | ADMIN | PARTNER.

(** [interface User] *)
Record User : Type := mkUser {
  id : string;
  email : string;
  username : string;
  avatar_url : option string;
  bio : option string;
  xp : R;
  level : R;
  reputation_score : R;
  role : Role;
  is_active : bool;
  created_at : string;
  updated_at : string
}.

(** [Partial<User>]: the fields an update carries. *)
Record UserUpdates : Type := mkUserUpdates {
  u_id : option string;
  u_email : option string;
  u_username : option string;
  u_avatar_url : option (option string);
  u_bio : option (option string);
  u_xp : option R;
  u_level : option R;
  u_reputation_score : option R;
  u_role : option Role;
  u_is_active : option bool;
  u_created_at : option string;
  u_updated_at : option string
}.

Definition override {A : Type} (old : A) (new : option A) : A :=
  match new with
  | Some v => v
  | None => old
  end.

(** [{ ...user, ...updates }] *)
Definition spread (user : User) (updates : UserUpdates) : User :=
  {| id := override (id user) (u_id updates);
     email := override (email user) (u_email updates);
     username := override (username user) (u_username updates);
     avatar_url := override (avatar_url user) (u_avatar_url updates);
     bio := override (bio user) (u_bio updates);
     xp := override (xp user) (u_xp updates);
     level := override (level user) (u_level updates);
     reputation_score :=
       override (reputation_score user) (u_reputation_score updates);
     role := override (role user) (u_role updates);
     is_active := override (is_active user) (u_is_active updates);
     created_at := override (created_at user) (u_created_at updates);
     updated_at := override (updated_at user) (u_updated_at updates) |}.

(** [interface AuthTokens] *)
Record AuthTokens : Type := mkAuthTokens {
  access_token : string;
  refresh_token : string;
  token_type : string
}.

(** The data fields of [AuthState]. *)
Record AuthState : Type := mkAuthState {
  user : option User;
  tokens : option AuthTokens;
  isLoading : bool;
  isAuthenticated : bool;
  layer : Layer
}.

Definition initialAuth : AuthState :=
  {| user := None; tokens := None; isLoading := true;
     isAuthenticated := false; layer := LIGHT |}.

(** [!!user] *)
Definition isSome {A : Type} (o : option A) : bool :=
  match o with
  | Some _ => true
  | None => false
  end.

(** The [set] calls of the store, one constructor per call site. *)
Inductive AuthUpdate : Type :=
| SetUser (u : option User)
| SetTokens (t : option AuthTokens)
| SetLoading (loading : bool)
| ToggleLayer
| SetLayer (l : Layer)
| LoggedIn (u : User) (t : AuthTokens)
| LoggedOut
| Loaded (u : User) (accessToken refreshToken : string)
| LoadFinished
| UpdateUser (updates : UserUpdates).

Open Scope string_scope.

Definition applyAuth (a : AuthUpdate) (s : AuthState) : AuthState :=
  match a with
  | SetUser u =>
      {| user := u; tokens := tokens s; isLoading := isLoading s;
         isAuthenticated := isSome u; layer := layer s |}
  | SetTokens t =>
      {| user := user s; tokens := t; isLoading := isLoading s;
         isAuthenticated := isAuthenticated s; layer := layer s |}
  | SetLoading loading =>
      {| user := user s; tokens := tokens s; isLoading := loading;
         isAuthenticated := isAuthenticated s; layer := layer s |}
  | ToggleLayer =>
      {| user := user s; tokens := tokens s; isLoading := isLoading s;
         isAuthenticated := isAuthenticated s;
         layer := match layer s with LIGHT => SHADOW | SHADOW => LIGHT end |}
  | SetLayer l =>
      {| user := user s; tokens := tokens s; isLoading := isLoading s;
         isAuthenticated := isAuthenticated s; layer := l |}
  | LoggedIn u t =>
      {| user := Some u; tokens := Some t; isLoading := false;
         isAuthenticated := true; layer := layer s |}
  | LoggedOut =>
      {| user := None; tokens := None; isLoading := isLoading s;
         isAuthenticated := false; layer := layer s |}
  | Loaded u accessToken refreshToken =>
      {| user := Some u;
         tokens := Some {| access_token := accessToken;
                           refresh_token := refreshToken;
                           token_type := "bearer" |};
         isLoading := false; isAuthenticated := true; layer := layer s |}
  | LoadFinished =>
      {| user := user s; tokens := tokens s; isLoading := false;
         isAuthenticated := isAuthenticated s; layer := layer s |}
  | UpdateUser updates =>
      {| user := match user s with
                 | Some u => Some (spread u updates)
                 | None => None
                 end;
         tokens := tokens s; isLoading := isLoading s;
         isAuthenticated := isAuthenticated s; layer := layer s |}
  end.

Definition runAuth (l : list AuthUpdate) (s : AuthState) : AuthState :=
  fold_left (fun acc a => applyAuth a acc) l s.

Definition reachableAuth (s : AuthState) : Prop :=
  exists l, s = runAuth l initialAuth.

(** The invariant of the store: the flag says whether there is a user. *)
Definition flagTracksUser (s : AuthState) : Prop :=
  isAuthenticated s = isSome (user s).

(** [SecureStore]: the items by key. *)
Definition Storage : Type := string -> option string.

Definition emptyStorage : Storage := fun _ => None.

Definition setItem (key value : string) (sto : Storage) : Storage :=
  fun k => if String.eqb k key then Some value else sto k.

Definition deleteItem (key : string) (sto : Storage) : Storage :=
  fun k => if String.eqb k key then None else sto k.

(** A string in a condition: the empty string counts as false. *)
Definition truthy (s : option string) : bool :=
  match s with
  | Some v => negb (String.eqb v EmptyString)
  | None => false
  end.

(** What an asynchronous action leaves behind: the store, the storage, and
    whether the returned promise was rejected. *)
Record AuthRun : Type := mkAuthRun {
  authState : AuthState;
  storage : Storage;
  rejected : bool
}.

Section WithJSON.

(** [JSON.stringify] on a user, and [JSON.parse] back ([None] when it
    throws). *)
Variable stringify : User -> string.
Variable parse : string -> option User.

(** [login(user, tokens)]; [ok1], [ok2], [ok3] say whether the three
    [SecureStore.setItemAsync] calls succeed.  A failed call leaves the
    storage as it was, and the error is thrown again. *)
Definition login (u : User) (t : AuthTokens) (ok1 ok2 ok3 : bool)
    (s : AuthState) (sto : Storage) : AuthRun :=
  if negb ok1 then {| authState := s; storage := sto; rejected := true |}
  else
    let sto1 := setItem "access_token" (access_token t) sto in
    if negb ok2 then {| authState := s; storage := sto1; rejected := true |}
    else
      let sto2 := setItem "refresh_token" (refresh_token t) sto1 in
      if negb ok3 then {| authState := s; storage := sto2; rejected := true |}
      else
        {| authState := applyAuth (LoggedIn u t) s;
           storage := setItem "user" (stringify u) sto2;
           rejected := false |}.

(** [logout()]; a failed [SecureStore.deleteItemAsync] is logged and
    swallowed, and the store is not touched. *)
Definition logout (ok1 ok2 ok3 : bool) (s : AuthState) (sto : Storage)
    : AuthRun :=
  if negb ok1 then {| authState := s; storage := sto; rejected := false |}
  else
    let sto1 := deleteItem "access_token" sto in
    if negb ok2 then {| authState := s; storage := sto1; rejected := false |}
    else
      let sto2 := deleteItem "refresh_token" sto1 in
      if negb ok3 then {| authState := s; storage := sto2; rejected := false |}
      else
        {| authState := applyAuth LoggedOut s;
           storage := deleteItem "user" sto2;
           rejected := false |}.

(** [loadStoredAuth()]; [readable] says whether the three
    [SecureStore.getItemAsync] calls succeed. *)
Definition loadStoredAuth (readable : bool) (s : AuthState) (sto : Storage)
    : AuthRun :=
  let finish := {| authState := applyAuth LoadFinished s; storage := sto;
                   rejected := false |} in
  if negb readable then finish
  else
    let accessToken := sto "access_token" in
    let refreshToken := sto "refresh_token" in
    let userStr := sto "user" in
    if truthy accessToken && truthy refreshToken && truthy userStr then
      match accessToken, refreshToken, userStr with
      | Some a, Some r, Some str =>
          match parse str with
          | Some u =>
              {| authState := applyAuth (Loaded u a r) s; storage := sto;
                 rejected := false |}
          | None => finish
          end
      | _, _, _ => finish
      end
    else finish.

End WithJSON.

End AuthStore.

(** ** Form validation ([validation.ts]) *)

Module Validation.

Open Scope string_scope.

(** *** Regular expressions

    Strings are sequences of code units below 256; on them a JavaScript
    regular expression without back-references denotes a regular language,
    matched here by derivatives. *)

Inductive regex : Type :=
| Never
| Eps
| Chr (p : ascii -> bool)
| Seq (r1 r2 : regex)
| Alt (r1 r2 : regex)
| Star (r : regex).

(** [r+] *)
Definition Plus (r : regex) : regex := Seq r (Star r).

(** [r{0,extra}] and [r{lo,lo+extra}] *)
Fixpoint UpTo (extra : nat) (r : regex) : regex :=
  match extra with
  | S m => Alt Eps (Seq r (UpTo m r))
  | O => Eps
  end.

Fixpoint Repeat (lo extra : nat) (r : regex) : regex :=
  match lo with
  | S n => Seq r (Repeat n extra r)
  | O => UpTo extra r
  end.

Fixpoint nullable (r : regex) : bool :=
  match r with
  | Never => false
  | Eps => true
  | Chr _ => false
  | Seq r1 r2 => nullable r1 && nullable r2
  | Alt r1 r2 => nullable r1 || nullable r2
  | Star _ => true
  end.

Fixpoint deriv (c : ascii) (r : regex) : regex :=
  match r with
  | Never => Never
  | Eps => Never
  | Chr p => if p c then Eps else Never
  | Seq r1 r2 =>
      if nullable r1 then Alt (Seq (deriv c r1) r2) (deriv c r2)
      else Seq (deriv c r1) r2
  | Alt r1 r2 => Alt (deriv c r1) (deriv c r2)
  | Star r1 => Seq (deriv c r1) (Star r1)
  end.

(** [/^r$/.test(s)] *)
Fixpoint fullMatch (r : regex) (s : string) : bool :=
  match s with
  | EmptyString => nullable r
  | String c rest => fullMatch (deriv c r) rest
  end.

Definition anyChar : regex := Chr (fun _ => true).

(** [/r/.test(s)]: some part of [s] matches. *)
Definition test (r : regex) (s : string) : bool :=
  fullMatch (Seq (Star anyChar) (Seq r (Star anyChar))) s.

(** The language of a regular expression. *)
Inductive Matches : regex -> string -> Prop :=
| MEps : Matches Eps EmptyString
| MChr (p : ascii -> bool) (c : ascii) :
    p c = true -> Matches (Chr p) (String c EmptyString)
| MSeq r1 r2 s1 s2 :
    Matches r1 s1 -> Matches r2 s2 -> Matches (Seq r1 r2) (s1 ++ s2)
| MAltL r1 r2 s : Matches r1 s -> Matches (Alt r1 r2) s
| MAltR r1 r2 s : Matches r2 s -> Matches (Alt r1 r2) s
| MStarNil r : Matches (Star r) EmptyString
| MStarCons r s1 s2 :
    Matches r s1 -> Matches (Star r) s2 -> Matches (Star r) (s1 ++ s2).

(** *** Character classes *)

Definition code (c : ascii) : nat := nat_of_ascii c.

Definition between (lo hi : nat) (c : ascii) : bool :=
  (lo <=? code c)%nat && (code c <=? hi)%nat.

(** [[A-Z]], [[a-z]], [\d] *)
Definition isUpper (c : ascii) : bool := between 65 90 c.
Definition isLower (c : ascii) : bool := between 97 122 c.
Definition isDigit (c : ascii) : bool := between 48 57 c.

(** [\s] below 256: tab, line feed, vertical tab, form feed, carriage
    return, space and no-break space. *)
Definition isSpace (c : ascii) : bool :=
  between 9 13 c || (code c =? 32)%nat || (code c =? 160)%nat.

Definition isChar (x : ascii) (c : ascii) : bool := Ascii.eqb c x.

(** [[^\s@]] *)
Definition notSpaceNorAt (c : ascii) : bool :=
  negb (isSpace c) && negb (isChar "@" c).

(** [[a-zA-Z0-9_]] *)
Definition isWordChar (c : ascii) : bool :=
  isLower c || isUpper c || isDigit c || isChar "_" c.

(** [[^A-Za-z0-9]] *)
Definition notAlphaNum (c : ascii) : bool :=
  negb (isUpper c || isLower c || isDigit c).

(** The characters listed in the class of [hasSpecialChar]; the double
    quote is code 34. *)
Definition specialChars : string :=
  "!@#$%^&*()_+-=[]{};':" ++ String (ascii_of_nat 34) EmptyString ++ "\|,.<>/?".

Fixpoint inString (c : ascii) (s : string) : bool :=
  match s with
  | EmptyString => false
  | String x rest => Ascii.eqb c x || inString c rest
  end.

Definition isSpecial (c : ascii) : bool := inString c specialChars.

(** Every character of [s] satisfies [p]; some character does. *)
Fixpoint allChars (p : ascii -> bool) (s : string) : bool :=
  match s with
  | EmptyString => true
  | String c rest => p c && allChars p rest
  end.

Fixpoint anyCharOf (p : ascii -> bool) (s : string) : bool :=
  match s with
  | EmptyString => false
  | String c rest => p c || anyCharOf p rest
  end.

(** [/^[^\s@]+@[^\s@]+\.[^\s@]+$/] *)
Definition emailRegex : regex :=
  Seq (Plus (Chr notSpaceNorAt))
      (Seq (Chr (isChar "@"))
           (Seq (Plus (Chr notSpaceNorAt))
                (Seq (Chr (isChar "."))
                     (Plus (Chr notSpaceNorAt))))).

(** [/^[a-zA-Z0-9_]{3,20}$/] *)
Definition usernameRegex : regex := Repeat 3 17 (Chr isWordChar).

(** *** Validation rules *)

(** A form value: a string, or [None] for [undefined]. *)
Definition Value : Type := option string.

(** A rule returns an error message or [None] for [null]. *)
Definition Validator : Type := Value -> option string.

(** [s.trim()] *)
Fixpoint trimStart (s : string) : string :=
  match s with
  | EmptyString => EmptyString
  | String c rest => if isSpace c then trimStart rest else s
  end.

Fixpoint trimEnd (s : string) : string :=
  match s with
  | EmptyString => EmptyString
  | String c rest =>
      match trimEnd rest with
      | EmptyString => if isSpace c then EmptyString else String c EmptyString
      | kept => String c kept
      end
  end.

Definition trim (s : string) : string := trimEnd (trimStart s).

Definition isEmptyString (s : string) : bool :=
  match s with
  | EmptyString => true
  | String _ _ => false
  end.

(** [value && ...]: a missing or empty value is false. *)
Definition present (value : Value) : option string :=
  match value with
  | Some v => if isEmptyString v then None else Some v
  | None => None
  end.

Definition showNat (n : nat) : string :=
  NilZero.string_of_uint (Nat.to_uint n).

(** A value of any type, as [required] reads it: a string, or a value that
    is not a string ([undefined], [null], a number, a boolean, an object),
    of which the rule reads only whether it is truthy. *)
Inductive AnyValue : Type :=
| StringValue (s : string)
| OtherValue (isTruthy : bool).

(** [!value]: the empty string is the one string that is not truthy. *)
Definition truthy (value : AnyValue) : bool :=
  match value with
  | StringValue s => negb (isEmptyString s)
  | OtherValue isTruthy => isTruthy
  end.

(** [typeof value === "string" && !value.trim()] *)
Definition blankString (value : AnyValue) : bool :=
  match value with
  | StringValue s => isEmptyString (trim s)
  | OtherValue _ => false
  end.

(** [required(fieldName)] at a value of any type. *)
Definition requiredAny (fieldName : string) (value : AnyValue)
    : option string :=
  if negb (truthy value) || blankString value
  then Some (fieldName ++ " is required")
  else None.

(** A form value among the values of any type; [undefined] is not
    truthy. *)
Definition ofValue (value : Value) : AnyValue :=
  match value with
  | Some v => StringValue v
  | None => OtherValue false
  end.

(** [required(fieldName)] as a rule of a form, at a form value. *)
Definition required (fieldName : string) : Validator :=
  fun value => requiredAny fieldName (ofValue value).

Definition isEmail : Validator :=
  fun value =>
    match present value with
    | Some v =>
        if negb (fullMatch emailRegex v)
        then Some "Enter a valid email address" else None
    | None => None
    end.

Definition minLength (min : nat) : Validator :=
  fun value =>
    match present value with
    | Some v =>
        if (String.length v <? min)%nat
        then Some ("Must be at least " ++ showNat min ++ " characters")
        else None
    | None => None
    end.

Definition maxLength (max : nat) : Validator :=
  fun value =>
    match present value with
    | Some v =>
        if (max <? String.length v)%nat
        then Some ("Must be no more than " ++ showNat max ++ " characters")
        else None
    | None => None
    end.

Definition hasUppercase : Validator :=
  fun value =>
    match present value with
    | Some v =>
        if negb (test (Chr isUpper) v)
        then Some "Must contain at least one uppercase letter" else None
    | None => None
    end.

Definition hasNumber : Validator :=
  fun value =>
    match present value with
    | Some v =>
        if negb (test (Chr isDigit) v)
        then Some "Must contain at least one number" else None
    | None => None
    end.

Definition hasSpecialChar : Validator :=
  fun value =>
    match present value with
    | Some v =>
        if negb (test (Chr isSpecial) v)
        then Some "Must contain at least one special character" else None
    | None => None
    end.

Definition isUsername : Validator :=
  fun value =>
    match present value with
    | Some v =>
        if negb (fullMatch usernameRegex v)
        then Some "Username: 3-20 characters, letters, numbers, underscores only"
        else None
    | None => None
    end.

Definition matchesField (fieldName matchValue : string) : Validator :=
  fun value =>
    match present value with
    | Some v =>
        if negb (String.eqb v matchValue)
        then Some ("Must match " ++ fieldName) else None
    | None => None
    end.

(** *** The form validator *)

(** An object with string keys, as its entries in insertion order. *)
Definition Obj (A : Type) : Type := list (string * A).

Fixpoint getKey {A : Type} (o : Obj A) (k : string) : option A :=
  match o with
  | [] => None
  | (k', v) :: rest => if String.eqb k k' then Some v else getKey rest k
  end.

(** [o[k] = v] *)
Fixpoint setKey {A : Type} (o : Obj A) (k : string) (v : A) : Obj A :=
  match o with
  | [] => [(k, v)]
  | (k', v') :: rest =>
      if String.eqb k k' then (k', v) :: rest
      else (k', v') :: setKey rest k v
  end.

(** The inner loop: the first message that counts as an error.  An empty
    message counts as none ([if (error)]). *)
Fixpoint firstError (validators : list Validator) (value : Value)
    : option string :=
  match validators with
  | [] => None
  | validator :: rest =>
      match present (validator value) with
      | Some e => Some e
      | None => firstError rest value
      end
  end.

(** [validateForm(rules, values)] *)
Definition validateForm (rules : Obj (list Validator)) (values : Obj string)
    : Obj string :=
  fold_left
    (fun errors entry =>
       match firstError (snd entry) (getKey values (fst entry)) with
       | Some e => setKey errors (fst entry) e
       | None => errors
       end)
    rules [].

(** [hasErrors(errors)] *)
Definition hasErrors (errors : Obj string) : bool :=
  (0 <? List.length errors)%nat.

(** *** Password strength *)

Inductive PasswordStrength : Type := weak | fair | good | strong.

Record StrengthReport : Type := mkStrengthReport {
  strength : PasswordStrength;
  score : nat;
  color : string;
  label : string
}.

Definition bump (b : bool) (n : nat) : nat := if b then S n else n.

(** The five criteria of [getPasswordStrength], counted. *)
Definition rawScore (password : string) : nat :=
  bump (test (Chr notAlphaNum) password)
    (bump (test (Chr isDigit) password)
       (bump (test (Chr isUpper) password && test (Chr isLower) password)
          (bump (12 <=? String.length password)%nat
             (bump (8 <=? String.length password)%nat 0)))).

Definition getPasswordStrength (password : string) : StrengthReport :=
  let s := rawScore password in
  if (s <=? 1)%nat then
    {| strength := weak; score := 1; color := "#EF4444"; label := "Weak" |}
  else if (s <=? 2)%nat then
    {| strength := fair; score := 2; color := "#F59E0B"; label := "Fair" |}
  else if (s <=? 3)%nat then
    {| strength := good; score := 3; color := "#3B82F6"; label := "Good" |}
  else
    {| strength := strong; score := 4; color := "#10B981"; label := "Strong" |}.

End Validation.

(** ** The global error handler ([errorHandler.ts]) *)

Module ErrorHandler.

Open Scope string_scope.

Inductive ErrorType : Type :=
| NETWORK | AUTH | VALIDATION | SERVER | LOCATION | STORAGE | UNKNOWN.

(** [interface AppError] *)
Record AppError : Type := mkAppError {
  type : ErrorType;
  message : string;
  technicalMessage : option string;
  statusCode : option Z;
  retryable : bool
}.

(** What [parseError] reads of [error.response]: the status, the strings
    [data.detail] and [data.message] when present, and
    [JSON.stringify(data)]. *)
Record Response : Type := mkResponse {
  status : Z;
  detail : option string;
  dataMessage : option string;
  dataJson : string
}.

(** What [parseError] reads of the thrown value: [error.response], whether
    [error.request] is set, [error.message], [error.code] and
    [String(error)]. *)
Record RawError : Type := mkRawError {
  err_response : option Response;
  err_request : bool;
  err_message : option string;
  err_code : option string;
  err_string : string
}.

(** [a || b] on optional strings: the first that is present and not
    empty. *)
Definition orElse (a b : option string) : option string :=
  match a with
  | Some v => if String.eqb v EmptyString then b else a
  | None => b
  end.

Definition orDefault (a : option string) (b : string) : string :=
  match orElse a None with
  | Some v => v
  | None => b
  end.

(** [hay.includes(needle)] *)
Fixpoint stringIncludes (needle hay : string) : bool :=
  String.prefix needle hay ||
  match hay with
  | EmptyString => false
  | String _ rest => stringIncludes needle rest
  end.

(** [error?.message?.includes(needle)] *)
Definition messageIncludes (needle : string) (e : RawError) : bool :=
  match err_message e with
  | Some m => stringIncludes needle m
  | None => false
  end.

(** A value in a template literal. *)
Definition shown (a : option string) : string :=
  match a with
  | Some v => v
  | None => "undefined"
  end.

Definition showStatus (n : Z) : string :=
  NilZero.string_of_int (Z.to_int n).

(** [parseError(error)] *)
Definition parseError (e : RawError) : AppError :=
  match err_response e with
  | Some response =>
      let st := status response in
      let serverMsg := orElse (detail response) (dataMessage response) in
      if (st =? 401)%Z then
        {| type := AUTH;
           message := "Session expired. Please log in again.";
           technicalMessage := serverMsg;
           statusCode := Some st; retryable := false |}
      else if (st =? 403)%Z then
        {| type := AUTH;
           message := "You don't have permission for this action.";
           technicalMessage := serverMsg;
           statusCode := Some st; retryable := false |}
      else if (st =? 422)%Z then
        {| type := VALIDATION;
           message := orDefault serverMsg
                        "Please check your input and try again.";
           technicalMessage := Some (dataJson response);
           statusCode := Some st; retryable := true |}
      else if (st =? 429)%Z then
        {| type := SERVER;
           message := "Too many requests. Please wait a moment.";
           technicalMessage := Some "Rate limited";
           statusCode := Some st; retryable := true |}
      else if (500 <=? st)%Z then
        {| type := SERVER;
           message := "Something went wrong on our end. Please try again.";
           technicalMessage := serverMsg;
           statusCode := Some st; retryable := true |}
      else
        {| type := SERVER;
           message := orDefault serverMsg "Something went wrong.";
           technicalMessage :=
             Some ("Status " ++ showStatus st ++ ": " ++ shown serverMsg);
           statusCode := Some st; retryable := true |}
  | None =>
      if err_request e || messageIncludes "Network" e then
        {| type := NETWORK;
           message :=
             "No internet connection. Check your network and try again.";
           technicalMessage := err_message e;
           statusCode := None; retryable := true |}
      else if match err_code e with
              | Some c => String.eqb c "ECONNABORTED"
              | None => false
              end || messageIncludes "timeout" e then
        {| type := NETWORK;
           message := "Request timed out. Please try again.";
           technicalMessage := err_message e;
           statusCode := None; retryable := true |}
      else if messageIncludes "Location" e || messageIncludes "permission" e
      then
        {| type := LOCATION;
           message := "Location access needed. Please enable GPS in settings.";
           technicalMessage := err_message e;
           statusCode := None; retryable := true |}
      else
        {| type := UNKNOWN;
           message := "Something unexpected happened. Please try again.";
           technicalMessage := Some (orDefault (err_message e) (err_string e));
           statusCode := None; retryable := true |}
  end.

(** [showErrorAlert(error, onRetry)]: the labels of the buttons of the
    alert; [hasOnRetry] says whether a retry callback was passed. *)
Definition showErrorAlert (error : AppError) (hasOnRetry : bool)
    : list string :=
  if retryable error && hasOnRetry then ["OK"; "Retry"] else ["OK"].

(** The response, if any, is a refusal: status 401 or 403. *)
Definition refused (e : RawError) : Prop :=
  exists r, err_response e = Some r /\ (status r = 401%Z \/ status r = 403%Z).

End ErrorHandler.

(** ** The token refresh of the API client ([api.ts]) *)

Module TokenRefresh.

(** Where the refreshing response interceptor stands: not running, waiting
    for the stored refresh token, the refresh call and the storing of the
    new tokens, or, after a failure, waiting for the stored tokens to be
    deleted. *)
Inductive Phase : Type := Idle | Fetching | Cleaning.

(** How a queued request's promise was settled by [processQueue]. *)
Inductive Settlement : Type :=
| ResolvedWith (token : string)
| RejectedWith.

(** The module variables [isRefreshing] and [failedQueue] (requests by
    number), the settlements made so far, and the phase. *)
Record Refresher : Type := mkRefresher {
  isRefreshing : bool;
  failedQueue : list nat;
  settled : list (nat * Settlement);
  phase : Phase
}.

Definition initialRefresher : Refresher :=
  {| isRefreshing := false; failedQueue := []; settled := []; phase := Idle |}.

(** [processQueue(error, token)]: every queued promise is settled, then the
    queue is emptied. *)
Definition processQueue (outcome : Settlement) (st : Refresher) : Refresher :=
  {| isRefreshing := isRefreshing st;
     failedQueue := [];
     settled := settled st ++ map (fun request => (request, outcome))
                                  (failedQueue st);
     phase := phase st |}.

(** What happens to the interceptor: a request that is neither an auth
    request nor a retry is answered 401; the refresh succeeds with a new
    access token; the refresh fails; the deletion of the stored tokens
    after a failure ends. *)
Inductive Event : Type :=
| Unauthorized (request : nat)
| RefreshSucceeded (token : string)
| RefreshFailed
| CleanupFinished.

Definition step (ev : Event) (st : Refresher) : Refresher :=
  match ev with
  | Unauthorized request =>
      if isRefreshing st then
        {| isRefreshing := true;
           failedQueue := failedQueue st ++ [request];
           settled := settled st;
           phase := phase st |}
      else
        {| isRefreshing := true;
           failedQueue := failedQueue st;
           settled := settled st;
           phase := Fetching |}
  | RefreshSucceeded token =>
      match phase st with
      | Fetching =>
          let st' := processQueue (ResolvedWith token) st in
          {| isRefreshing := false;
             failedQueue := failedQueue st';
             settled := settled st';
             phase := Idle |}
      | _ => st
      end
  | RefreshFailed =>
      match phase st with
      | Fetching =>
          let st' := processQueue RejectedWith st in
          {| isRefreshing := isRefreshing st';
             failedQueue := failedQueue st';
             settled := settled st';
             phase := Cleaning |}
      | _ => st
      end
  | CleanupFinished =>
      match phase st with
      | Cleaning =>
          {| isRefreshing := false;
             failedQueue := failedQueue st;
             settled := settled st;
             phase := Idle |}
      | _ => st
      end
  end.

Definition steps (l : list Event) (st : Refresher) : Refresher :=
  fold_left (fun acc ev => step ev acc) l st.

Definition reachableRefresher (st : Refresher) : Prop :=
  exists l, st = steps l initialRefresher.

(** The flag is set exactly while the interceptor is at work. *)
Definition refresherConsistent (st : Refresher) : Prop :=
  isRefreshing st = true <-> phase st <> Idle.

End TokenRefresh.

(** * Properties *)

(** ** Comparisons and the constant [PI] *)

Module JSMathFacts.

Lemma Rleb_true_iff (x y : R) : Rleb x y = true <-> x <= y.
Proof. unfold Rleb; destruct (Rle_dec x y); split; intros; easy. Qed.

Lemma Rleb_false_iff (x y : R) : Rleb x y = false <-> y < x.
Proof.
  unfold Rleb; destruct (Rle_dec x y); split; intros; try easy; lra.
Qed.


Lemma Rltb_false_iff (x y : R) : Rltb x y = false <-> y <= x.
Proof.
  unfold Rltb; destruct (Rlt_dec x y); split; intros; try easy; lra.
Qed.

(** Two terms of Machin's series for [atan (/3)] and [atan (/7)]. *)
Lemma PI_bounds : 3.13 < PI < 3.15.
Proof.
  pose proof (PI_2_3_7_ineq 0) as [Hlo _].
  pose proof (PI_2_3_7_ineq 1) as [_ Hhi].
  unfold sum_f_R0, tg_alt, PI_2_3_7_tg, Ratan_seq in Hlo, Hhi.
  simpl in Hlo, Hhi.
  split; lra.
Qed.

Lemma sin_half_sq (x : R) : sin (x / 2) * sin (x / 2) = (1 - cos x) / 2.
Proof.
  replace x with (2 * (x / 2)) at 3 by field.
  rewrite cos_2a_sin. field.
Qed.

(** On the first quadrant [Math.atan2] recovers the angle. *)
Lemma atan2_sin_cos (x : R) :
  0 <= x <= PI / 2 -> Math_atan2 (sin x) (cos x) = x.
Proof.
  intros [H0 H1].
  unfold Math_atan2.
  destruct (Rle_lt_or_eq_dec _ _ H1) as [Hlt | Heq].
  - assert (Hc : 0 < cos x) by (apply cos_gt_0; lra).
    destruct (Rlt_dec 0 (cos x)); [|contradiction].
    change (sin x / cos x) with (tan x).
    apply atan_tan; lra.
  - subst x. rewrite cos_PI2, sin_PI2.
    destruct (Rlt_dec 0 0); [lra|].
    destruct (Rlt_dec 0 1); [reflexivity | lra].
Qed.

Lemma sqrt_sin_sq (x : R) : 0 <= x <= PI / 2 -> sqrt (sin x * sin x) = sin x.
Proof.
  intros H. apply sqrt_square. apply sin_ge_0; pose proof PI_RGT_0; lra.
Qed.

Lemma sqrt_cos_sq (x : R) :
  0 <= x <= PI / 2 -> sqrt (1 - sin x * sin x) = cos x.
Proof.
  intros H.
  replace (1 - sin x * sin x) with (cos x * cos x).
  - apply sqrt_square. apply cos_ge_0; lra.
  - pose proof (sin2_cos2 x) as E. unfold Rsqr in E. lra.
Qed.

(** Every [a] in [[0, 1]] is the squared sine of half an angle of [[0, PI]]. *)
Lemma haversine_half_angle (a : R) :
  0 <= a <= 1 ->
  let x := acos (1 - 2 * a) / 2 in
  0 <= x <= PI / 2 /\ sin x * sin x = a.
Proof.
  intros Ha x.
  pose proof (acos_bound (1 - 2 * a)) as Hb.
  split; [unfold x; lra|].
  unfold x. rewrite sin_half_sq, cos_acos by lra. field.
Qed.

Lemma atan2_haversine (a : R) :
  0 <= a <= 1 ->
  2 * Math_atan2 (sqrt a) (sqrt (1 - a)) = acos (1 - 2 * a).
Proof.
  intros Ha.
  destruct (haversine_half_angle a Ha) as [Hx Hs].
  set (x := acos (1 - 2 * a) / 2) in *.
  assert (E : Math_atan2 (sqrt a) (sqrt (1 - a)) = x).
  { rewrite <- Hs.
    rewrite sqrt_sin_sq, sqrt_cos_sq, atan2_sin_cos by exact Hx.
    reflexivity. }
  rewrite E. unfold x. field.
Qed.

End JSMathFacts.

Import JSMathFacts.

(** ** Coordinate ranges *)

Module RangeFacts.

Lemma validLatitude_iff (lat : R) :
  validLatitude lat = true <-> -90 <= lat <= 90.
Proof.
  unfold validLatitude.
  rewrite andb_true_iff, !Rleb_true_iff. tauto.
Qed.

Lemma validLongitude_iff (lon : R) :
  validLongitude lon = true <-> -180 <= lon <= 180.
Proof.
  unfold validLongitude.
  rewrite andb_true_iff, !Rleb_true_iff. tauto.
Qed.

Lemma validCoordinate_iff (c : Coordinates) :
  validCoordinate c = true <->
  (-90 <= latitude c <= 90) /\ (-180 <= longitude c <= 180).
Proof.
  unfold validCoordinate.
  rewrite andb_true_iff, validLatitude_iff, validLongitude_iff. tauto.
Qed.

Lemma validCoordinate_false_iff (c : Coordinates) :
  validCoordinate c = false <->
  latitude c < -90 \/ 90 < latitude c \/
  longitude c < -180 \/ 180 < longitude c.
Proof.
  rewrite <- not_true_iff_false, validCoordinate_iff.
  split; [intros H | intros H1 H2; lra].
  destruct (Rlt_dec (latitude c) (-90)); [tauto|].
  destruct (Rlt_dec 90 (latitude c)); [tauto|].
  destruct (Rlt_dec (longitude c) (-180)); [tauto|].
  destruct (Rlt_dec 180 (longitude c)); [tauto|].
  exfalso; apply H; lra.
Qed.

End RangeFacts.

Import RangeFacts.

(** ** The haversine distance *)

Module GeoFacts.

(** The haversine term is half of one minus the cosine of the central
    angle. *)
Lemma haversine_centralCosine (lat1 lon1 lat2 lon2 : R) :
  1 - 2 * haversine lat1 lon1 lat2 lon2 = centralCosine lat1 lon1 lat2 lon2.
Proof.
  unfold haversine, centralCosine.
  replace (cos (lat1 * PI / 180) * cos (lat2 * PI / 180) *
           sin ((lon2 - lon1) * PI / 180 / 2) * sin ((lon2 - lon1) * PI / 180 / 2))
    with (cos (lat1 * PI / 180) * cos (lat2 * PI / 180) *
          (sin ((lon2 - lon1) * PI / 180 / 2) * sin ((lon2 - lon1) * PI / 180 / 2)))
    by ring.
  rewrite !sin_half_sq.
  replace ((lat2 - lat1) * PI / 180)
    with (lat2 * PI / 180 - lat1 * PI / 180) by field.
  rewrite cos_minus. field.
Qed.

Lemma product_le_squares (u v : R) : Rabs (u * v) <= (u * u + v * v) / 2.
Proof.
  pose proof (Rle_0_sqr (u + v)) as Hp.
  pose proof (Rle_0_sqr (u - v)) as Hm.
  unfold Rsqr in Hp, Hm.
  apply Rabs_le; split; lra.
Qed.

(** The scalar product of two unit vectors. *)
Lemma centralCosine_bounds (lat1 lon1 lat2 lon2 : R) :
  -1 <= centralCosine lat1 lon1 lat2 lon2 <= 1.
Proof.
  unfold centralCosine.
  pose proof (sin2_cos2 (lat1 * PI / 180)) as H1.
  pose proof (sin2_cos2 (lat2 * PI / 180)) as H2.
  pose proof (COS_bound ((lon2 - lon1) * PI / 180)) as [Hl Hu].
  unfold Rsqr in H1, H2.
  set (s1 := sin (lat1 * PI / 180)) in *.
  set (s2 := sin (lat2 * PI / 180)) in *.
  set (c1 := cos (lat1 * PI / 180)) in *.
  set (c2 := cos (lat2 * PI / 180)) in *.
  set (k := cos ((lon2 - lon1) * PI / 180)) in *.
  clearbody s1 s2 c1 c2 k.
  assert (Hk : Rabs (c1 * c2 * k) <= Rabs (c1 * c2)).
  { rewrite (Rabs_mult (c1 * c2) k).
    rewrite <- (Rmult_1_r (Rabs (c1 * c2))) at 2.
    apply Rmult_le_compat_l; [apply Rabs_pos|].
    apply Rabs_le; lra. }
  pose proof (product_le_squares c1 c2) as Hc.
  pose proof (product_le_squares s1 s2) as Hs.
  pose proof (Rabs_triang (s1 * s2) (c1 * c2 * k)) as Ht.
  pose proof (Rle_abs (s1 * s2 + c1 * c2 * k)) as Hp.
  pose proof (Rle_abs (- (s1 * s2 + c1 * c2 * k))) as Hm.
  rewrite Rabs_Ropp in Hm. lra.
Qed.

(** The argument of both square roots is never negative. *)
Lemma haversine_bounds (lat1 lon1 lat2 lon2 : R) :
  0 <= haversine lat1 lon1 lat2 lon2 <= 1.
Proof.
  pose proof (haversine_centralCosine lat1 lon1 lat2 lon2).
  pose proof (centralCosine_bounds lat1 lon1 lat2 lon2).
  lra.
Qed.

(** [calculateDistance] is the radius times the central angle. *)
Lemma calculateDistance_acos (lat1 lon1 lat2 lon2 : R) :
  calculateDistance lat1 lon1 lat2 lon2 =
  earthRadius * acos (centralCosine lat1 lon1 lat2 lon2).
Proof.
  unfold calculateDistance.
  rewrite atan2_haversine by apply haversine_bounds.
  rewrite haversine_centralCosine. reflexivity.
Qed.

Lemma calculateDistance_nonneg (lat1 lon1 lat2 lon2 : R) :
  0 <= calculateDistance lat1 lon1 lat2 lon2.
Proof.
  rewrite calculateDistance_acos.
  pose proof (acos_bound (centralCosine lat1 lon1 lat2 lon2)).
  unfold earthRadius. nra.
Qed.

(** Two points of the equator. *)
Lemma calculateDistance_equator (lon1 lon2 : R) :
  0 <= lon2 - lon1 <= 180 ->
  calculateDistance 0 lon1 0 lon2 = earthRadius * ((lon2 - lon1) * PI / 180).
Proof.
  intros H.
  rewrite calculateDistance_acos. f_equal.
  unfold centralCosine.
  replace (0 * PI / 180) with 0 by field.
  rewrite sin_0, cos_0.
  replace (0 * 0 + 1 * 1 * cos ((lon2 - lon1) * PI / 180))
    with (cos ((lon2 - lon1) * PI / 180)) by ring.
  apply acos_cos. pose proof PI_RGT_0. split; nra.
Qed.

(** Two points of one meridian. *)
Lemma calculateDistance_meridian (lat1 lat2 lon : R) :
  0 <= lat2 - lat1 <= 180 ->
  calculateDistance lat1 lon lat2 lon =
  earthRadius * ((lat2 - lat1) * PI / 180).
Proof.
  intros H.
  rewrite calculateDistance_acos. f_equal.
  unfold centralCosine.
  replace ((lon - lon) * PI / 180) with 0 by field.
  rewrite cos_0, Rmult_1_r.
  replace (sin (lat1 * PI / 180) * sin (lat2 * PI / 180) +
           cos (lat1 * PI / 180) * cos (lat2 * PI / 180))
    with (cos (lat2 * PI / 180 - lat1 * PI / 180))
    by (rewrite cos_minus; ring).
  replace (lat2 * PI / 180 - lat1 * PI / 180)
    with ((lat2 - lat1) * PI / 180) by field.
  apply acos_cos. pose proof PI_RGT_0. split; nra.
Qed.

Lemma haversine_sym (lat1 lon1 lat2 lon2 : R) :
  haversine lat1 lon1 lat2 lon2 = haversine lat2 lon2 lat1 lon1.
Proof.
  unfold haversine.
  replace ((lat1 - lat2) * PI / 180 / 2)
    with (- ((lat2 - lat1) * PI / 180 / 2)) by field.
  replace ((lon1 - lon2) * PI / 180 / 2)
    with (- ((lon2 - lon1) * PI / 180 / 2)) by field.
  rewrite !sin_neg. ring.
Qed.

Lemma calculateDistance_sym (lat1 lon1 lat2 lon2 : R) :
  calculateDistance lat1 lon1 lat2 lon2 = calculateDistance lat2 lon2 lat1 lon1.
Proof.
  unfold calculateDistance.
  rewrite (haversine_sym lat1 lon1 lat2 lon2). reflexivity.
Qed.

Lemma calculateDistance_same (lat lon : R) :
  calculateDistance lat lon lat lon = 0.
Proof.
  unfold calculateDistance, haversine.
  replace ((lat - lat) * PI / 180 / 2) with 0 by field.
  replace ((lon - lon) * PI / 180 / 2) with 0 by field.
  rewrite sin_0.
  replace (0 * 0 + cos (lat * PI / 180) * cos (lat * PI / 180) * 0 * 0)
    with 0 by ring.
  rewrite Rminus_0_r, sqrt_0, sqrt_1.
  unfold Math_atan2.
  destruct (Rlt_dec 0 1); [|lra].
  replace (0 / 1) with 0 by field.
  rewrite atan_0. ring.
Qed.

(** One degree along the equator or along a meridian, in metres. *)
Lemma one_degree_bounds :
  110780 < earthRadius * (1 * PI / 180) < 111500.
Proof.
  pose proof PI_bounds. unfold earthRadius. lra.
Qed.

Lemma greatCircleDistance_calculateDistance (a b : Coordinates) :
  greatCircleDistance a b =
  calculateDistance (latitude a) (longitude a) (latitude b) (longitude b).
Proof.
  unfold greatCircleDistance. rewrite calculateDistance_acos. reflexivity.
Qed.

(** C4: [distanceMeters] is symmetric in its two coordinates, and the
    distance from a coordinate to itself is 0.  Both hold for every pair of
    coordinates, in range or not. *)
Theorem distanceMeters_symmetric_zero_on_diagonal :
  (forall a b : Coordinates, distanceMeters a b = distanceMeters b a) /\
  (forall a : Coordinates, distanceMeters a a = Normal 0).
Proof.
  split.
  - intros a b. unfold distanceMeters.
    f_equal. apply calculateDistance_sym.
  - intros a. unfold distanceMeters.
    f_equal. apply calculateDistance_same.
Qed.

(** C5: [distanceMeters] is the great-circle distance on the sphere of
    radius 6,371,000 m; from {0,0} to {0,1} (and to {1,0}) it is within 1% of
    111,320 m; and for in-range coordinates less than 50 km apart it is
    within 0.5% of the great-circle distance. *)
Theorem distanceMeters_great_circle_accuracy :
  earthRadius = 6371000 /\
  (forall a b : Coordinates,
     distanceMeters a b = Normal (greatCircleDistance a b)) /\
  (exists d, distanceMeters (mkCoordinates 0 0) (mkCoordinates 0 1) = Normal d /\
             Rabs (d - 111320) <= 0.01 * 111320) /\
  (exists d, distanceMeters (mkCoordinates 0 0) (mkCoordinates 1 0) = Normal d /\
             Rabs (d - 111320) <= 0.01 * 111320) /\
  (forall a b : Coordinates,
     validCoordinate a = true -> validCoordinate b = true ->
     greatCircleDistance a b < 50000 ->
     exists d, distanceMeters a b = Normal d /\
               Rabs (d - greatCircleDistance a b)
               <= 0.005 * greatCircleDistance a b).
Proof.
  pose proof one_degree_bounds as Hdeg.
  repeat split.
  - intros a b. unfold distanceMeters.
    rewrite greatCircleDistance_calculateDistance. reflexivity.
  - eexists; split; [reflexivity|]. simpl.
    rewrite calculateDistance_equator by lra.
    replace (1 - 0) with 1 by ring.
    apply Rabs_le; lra.
  - eexists; split; [reflexivity|]. simpl.
    rewrite calculateDistance_meridian by lra.
    replace (1 - 0) with 1 by ring.
    apply Rabs_le; lra.
  - intros a b _ _ _.
    exists (greatCircleDistance a b). split.
    + unfold distanceMeters.
      rewrite greatCircleDistance_calculateDistance. reflexivity.
    + replace (greatCircleDistance a b - greatCircleDistance a b) with 0 by ring.
      rewrite Rabs_R0.
      rewrite greatCircleDistance_calculateDistance.
      pose proof (calculateDistance_nonneg (latitude a) (longitude a)
                                           (latitude b) (longitude b)).
      lra.
Qed.

(** A pair of in-range coordinates about 11 km apart. *)
Lemma distanceMeters_great_circle_accuracy_witness :
  exists d,
    distanceMeters (mkCoordinates 0 0) (mkCoordinates 0 0.1) = Normal d /\
    Rabs (d - greatCircleDistance (mkCoordinates 0 0) (mkCoordinates 0 0.1))
    <= 0.005 * greatCircleDistance (mkCoordinates 0 0) (mkCoordinates 0 0.1).
Proof.
  apply (proj2 (proj2 (proj2 (proj2 distanceMeters_great_circle_accuracy)))).
  - apply validCoordinate_iff; simpl; lra.
  - apply validCoordinate_iff; simpl; lra.
  - rewrite greatCircleDistance_calculateDistance; simpl.
    rewrite calculateDistance_equator by lra.
    pose proof PI_bounds. unfold earthRadius. lra.
Defined.

(** C3, as stated, fails: with radius 0 the hook does not fail with
    [InvalidRadius]; standing on the target it answers [true], and with
    radius -1 it answers [false]. *)
Lemma isWithinRadius_nonpositive_radius_returns :
  isWithinRadius (Some (mkCoordinates 0 0)) 0 0 0 = Normal true /\
  isWithinRadius (Some (mkCoordinates 0 0)) 0 0 (-1) = Normal false /\
  ~ fails (isWithinRadius (Some (mkCoordinates 0 0)) 0 0 0) InvalidRadius /\
  ~ fails (isWithinRadius (Some (mkCoordinates 0 0)) 0 0 (-1)) InvalidRadius.
Proof.
  unfold fails, isWithinRadius; simpl.
  rewrite calculateDistance_same.
  repeat split; try discriminate.
  - f_equal. apply Rleb_true_iff. lra.
  - f_equal. apply Rleb_false_iff. lra.
Qed.

(** C3, amended: [isWithinRadius] never fails, whatever the radius.  With a
    current location it answers whether the distance is at most the radius,
    boundary included; without one it answers [false]. *)
Theorem isWithinRadius_total_inclusive :
  forall (cur : option Coordinates) (targetLat targetLng radiusMeters : R),
    succeeds (isWithinRadius cur targetLat targetLng radiusMeters) /\
    (forall e, ~ fails (isWithinRadius cur targetLat targetLng radiusMeters) e) /\
    match cur with
    | None => isWithinRadius cur targetLat targetLng radiusMeters = Normal false
    | Some loc =>
        let d := calculateDistance (latitude loc) (longitude loc)
                                   targetLat targetLng in
        (isWithinRadius cur targetLat targetLng radiusMeters = Normal true
         <-> d <= radiusMeters) /\
        (isWithinRadius cur targetLat targetLng radiusMeters = Normal false
         <-> radiusMeters < d) /\
        isWithinRadius cur targetLat targetLng d = Normal true
    end.
Proof.
  intros cur targetLat targetLng radiusMeters.
  destruct cur as [loc|]; unfold succeeds, fails, isWithinRadius.
  - repeat split; try (intros; discriminate).
    + eexists; reflexivity.
    + intros H. injection H as H. now apply Rleb_true_iff.
    + intros H. f_equal. now apply Rleb_true_iff.
    + intros H. injection H as H. now apply Rleb_false_iff.
    + intros H. f_equal. now apply Rleb_false_iff.
    + f_equal. apply Rleb_true_iff. lra.
  - repeat split; try (intros; discriminate).
    eexists; reflexivity.
Qed.

End GeoFacts.

Import GeoFacts.

(** ** Fog-of-war chunks *)

Module ChunkFacts.

Lemma div_le_iff (a b c : R) : 0 < b -> (a / b <= c <-> a <= c * b).
Proof.
  intros Hb. split; intros H.
  - replace a with (a / b * b) by (field; lra).
    apply Rmult_le_compat_r; lra.
  - apply Rmult_le_reg_r with b; [exact Hb|].
    replace (a / b * b) with a by (field; lra). exact H.
Qed.

Lemma div_lt_iff (a b c : R) : 0 < b -> (a / b < c <-> a < c * b).
Proof.
  intros Hb. split; intros H.
  - replace a with (a / b * b) by (field; lra).
    apply Rmult_lt_compat_r; lra.
  - apply Rmult_lt_reg_r with b; [exact Hb|].
    replace (a / b * b) with a by (field; lra). exact H.
Qed.

Lemma le_div_iff (a b c : R) : 0 < b -> (c <= a / b <-> c * b <= a).
Proof.
  intros Hb. split; intros H.
  - replace a with (a / b * b) by (field; lra).
    apply Rmult_le_compat_r; lra.
  - apply Rmult_le_reg_r with b; [exact Hb|].
    replace (a / b * b) with a by (field; lra). exact H.
Qed.


Lemma cos_deg_nonneg (deg : R) :
  -90 <= deg <= 90 -> 0 <= cos (deg * PI / 180).
Proof.
  intros H. pose proof PI_RGT_0.
  apply cos_ge_0; nra.
Qed.

Lemma lonDegPerChunk_nonneg (size origin : R) :
  0 < size -> validLatitude origin = true -> 0 <= lonDegPerChunk size origin.
Proof.
  intros Hs Ho. apply validLatitude_iff in Ho.
  pose proof (cos_deg_nonneg origin Ho) as Hc.
  unfold lonDegPerChunk.
  destruct (Rle_lt_or_eq_dec _ _ Hc) as [Hpos | Hz].
  - apply Rlt_le, Rdiv_lt_0_compat; nra.
  - rewrite <- Hz, Rmult_0_r. unfold Rdiv. rewrite Rinv_0. lra.
Qed.

Lemma latDegPerChunk_pos (size : R) : 0 < size -> 0 < latDegPerChunk size.
Proof. intros H. unfold latDegPerChunk. lra. Qed.

(** The floor of [x / L] is the index of the interval of length [L] that
    holds [x]. *)
Lemma floor_cell (x L : R) (i : Z) :
  IZR i * L <= x < (IZR i + 1) * L -> 0 <= L -> Math_floor (x / L) = i.
Proof.
  intros [H1 H2] HL.
  assert (0 < L) by nra.
  apply Zfloor_eq. split.
  - now apply le_div_iff.
  - now apply div_lt_iff.
Qed.

Lemma floor_spec (x : R) :
  IZR (Math_floor x) <= x < IZR (Math_floor x) + 1.
Proof. apply Zfloor_bound. Qed.

(** Two numbers at least one interval apart fall in different intervals. *)
Lemma floor_apart (x y L : R) :
  0 < L -> L <= Rabs (y - x) -> Math_floor (x / L) <> Math_floor (y / L).
Proof.
  intros HL Hd E.
  pose proof (floor_spec (x / L)) as [Hx1 Hx2].
  pose proof (floor_spec (y / L)) as [Hy1 Hy2].
  rewrite E in Hx1, Hx2.
  set (k := IZR (Math_floor (y / L))) in *. clearbody k.
  apply le_div_iff in Hx1, Hy1; try exact HL.
  apply div_lt_iff in Hx2, Hy2; try exact HL.
  unfold Rabs in Hd. destruct (Rcase_abs (y - x)); lra.
Qed.

Lemma chunkOf_valid (coord : Coordinates) (size origin : R) :
  validCoordinate coord = true -> validLatitude origin = true ->
  chunkOf coord size origin =
  Normal {| chunk_x := Math_floor (longitude coord / lonDegPerChunk size origin);
            chunk_y := Math_floor (latitude coord / latDegPerChunk size) |}.
Proof.
  intros Hc Ho. unfold chunkOf. rewrite Hc, Ho. reflexivity.
Qed.

(** On non-negative coordinates, the region the documentation writes the
    grid math for, [int] is the floor; below zero it rounds the other way. *)
Lemma documentedChunk_floor (c : Coordinates) :
  0 <= latitude c -> 0 <= longitude c ->
  documentedChunk c =
  {| chunk_x := Math_floor (longitude c / 0.000917);
     chunk_y := Math_floor (latitude c / 0.0009) |}.
Proof.
  intros Hlat Hlon. unfold documentedChunk, int.
  destruct (Rle_dec 0 (longitude c / 0.000917)) as [_ | Hn];
    [| exfalso; apply Hn; apply le_div_iff; lra].
  destruct (Rle_dec 0 (latitude c / 0.0009)) as [_ | Hn];
    [| exfalso; apply Hn; apply le_div_iff; lra].
  reflexivity.
Qed.

Lemma documentedChunk_below_zero :
  documentedChunk (mkCoordinates (-0.0001) (-0.0001)) = mkFogChunk 0 0.
Proof.
  unfold documentedChunk, int. cbn [latitude longitude].
  destruct (Rle_dec 0 (-0.0001 / 0.000917)) as [Hp | _]; [exfalso; lra|].
  destruct (Rle_dec 0 (-0.0001 / 0.0009)) as [Hp | _]; [exfalso; lra|].
  unfold Zceil. f_equal.
  - rewrite (Zfloor_eq 0); [reflexivity | lra].
  - rewrite (Zfloor_eq 0); [reflexivity | lra].
Qed.

(** C6: for in-range inputs and a positive chunk size, [chunkOf] returns the
    floors of longitude and latitude divided by the degrees one chunk spans
    (rounding toward negative infinity, also below zero); two coordinates of
    one cell get the same chunk; two coordinates 150 m apart along longitude
    get different [chunk_x] on the 100 m grid. *)
Theorem chunkOf_floor_grid :
  (forall (coord : Coordinates) (size origin : R),
     validCoordinate coord = true -> validLatitude origin = true -> 0 < size ->
     exists k : FogChunk,
       chunkOf coord size origin = Normal k /\
       chunk_x k = Zfloor (longitude coord /
                           (size / (111320 * cos (origin * PI / 180)))) /\
       chunk_y k = Zfloor (latitude coord / (size / 110540)) /\
       IZR (chunk_x k) <= longitude coord / lonDegPerChunk size origin
         < IZR (chunk_x k) + 1 /\
       IZR (chunk_y k) <= latitude coord / latDegPerChunk size
         < IZR (chunk_y k) + 1) /\
  chunkOf (mkCoordinates (-0.0001) (-0.0001)) 100 0
    = Normal (mkFogChunk (-1) (-1)) /\
  (forall (c1 c2 : Coordinates) (size origin : R) (i j : Z),
     validCoordinate c1 = true -> validCoordinate c2 = true ->
     validLatitude origin = true -> 0 < size ->
     inCell size origin i j c1 -> inCell size origin i j c2 ->
     chunkOf c1 size origin = Normal (mkFogChunk i j) /\
     chunkOf c2 size origin = chunkOf c1 size origin) /\
  (forall (c1 c2 : Coordinates) (origin : R) (k1 k2 : FogChunk),
     validCoordinate c1 = true -> validCoordinate c2 = true ->
     validLatitude origin = true ->
     lonSeparationMeters origin (longitude c1) (longitude c2) = 150 ->
     chunkOf c1 100 origin = Normal k1 ->
     chunkOf c2 100 origin = Normal k2 ->
     chunk_x k1 <> chunk_x k2).
Proof.
  split; [|split; [|split]].
  - intros coord size origin Hc Ho Hs.
    eexists. split; [apply chunkOf_valid; assumption|].
    simpl. repeat split; try apply floor_spec.
  - rewrite chunkOf_valid
      by (try apply validCoordinate_iff; try apply validLatitude_iff; simpl; lra).
    unfold lonDegPerChunk, latDegPerChunk; simpl.
    replace (0 * PI / 180) with 0 by field. rewrite cos_0.
    f_equal. f_equal; apply Zfloor_eq; lra.
  - intros c1 c2 size origin i j H1 H2 Ho Hs [Hx1 Hy1] [Hx2 Hy2].
    pose proof (lonDegPerChunk_nonneg size origin Hs Ho) as HL.
    pose proof (latDegPerChunk_pos size Hs) as HM.
    rewrite !chunkOf_valid by assumption.
    rewrite (floor_cell _ _ i Hx1 HL), (floor_cell _ _ i Hx2 HL).
    rewrite (floor_cell _ _ j Hy1 (Rlt_le _ _ HM)).
    rewrite (floor_cell _ _ j Hy2 (Rlt_le _ _ HM)).
    split; reflexivity.
  - intros c1 c2 origin k1 k2 H1 H2 Ho Hsep E1 E2.
    rewrite chunkOf_valid in E1, E2 by assumption.
    injection E1 as <-. injection E2 as <-. simpl.
    unfold lonSeparationMeters in Hsep.
    pose proof (proj1 (validLatitude_iff origin) Ho) as Hr.
    pose proof (cos_deg_nonneg origin Hr) as Hcos.
    pose proof (Rabs_pos (longitude c2 - longitude c1)) as Habs.
    assert (Hc : 0 < cos (origin * PI / 180)) by nra.
    apply floor_apart.
    + unfold lonDegPerChunk. apply Rdiv_lt_0_compat; lra.
    + unfold lonDegPerChunk. apply div_le_iff; nra.
Qed.

(** The origin and a point 150 m east of it, on the 100 m grid at the
    equator; and two points of the cell (0, 0). *)
Lemma chunkOf_floor_grid_witness :
  (exists k : FogChunk,
     chunkOf (mkCoordinates 0.0001 0.0002) 100 0 = Normal k /\
     chunk_x k = Zfloor (0.0002 / (100 / (111320 * cos (0 * PI / 180)))) /\
     chunk_y k = Zfloor (0.0001 / (100 / 110540)) /\
     IZR (chunk_x k) <= 0.0002 / lonDegPerChunk 100 0 < IZR (chunk_x k) + 1 /\
     IZR (chunk_y k) <= 0.0001 / latDegPerChunk 100 < IZR (chunk_y k) + 1) /\
  (chunkOf (mkCoordinates 0.0001 0.0002) 100 0 = Normal (mkFogChunk 0 0) /\
   chunkOf (mkCoordinates 0.0005 0.0007) 100 0
   = chunkOf (mkCoordinates 0.0001 0.0002) 100 0) /\
  chunk_x (mkFogChunk 0 0) <> chunk_x (mkFogChunk 1 0).
Proof.
  destruct chunkOf_floor_grid as (Hfloor & _ & Hcell & Hapart).
  assert (Hcos : cos (0 * PI / 180) = 1).
  { replace (0 * PI / 180) with 0 by field. apply cos_0. }
  assert (Ho : validLatitude 0 = true) by (apply validLatitude_iff; lra).
  assert (Hv : forall lat lon, -90 <= lat <= 90 -> -180 <= lon <= 180 ->
                 validCoordinate (mkCoordinates lat lon) = true).
  { intros lat lon Hlat Hlon. apply validCoordinate_iff. simpl. lra. }
  split; [|split].
  - apply (Hfloor (mkCoordinates 0.0001 0.0002) 100 0);
      [apply Hv; lra | exact Ho | lra].
  - apply (Hcell (mkCoordinates 0.0001 0.0002) (mkCoordinates 0.0005 0.0007)
                 100 0 0%Z 0%Z); try (apply Hv; lra); try exact Ho; try lra;
      unfold inCell, lonDegPerChunk, latDegPerChunk; rewrite Hcos; simpl; lra.
  - apply (Hapart (mkCoordinates 0 0) (mkCoordinates 0 (150 / 111320)) 0);
      try (apply Hv; lra); try exact Ho.
    + unfold lonSeparationMeters; simpl. rewrite Hcos.
      rewrite Rabs_right by lra. field.
    + rewrite chunkOf_valid by (try (apply Hv; lra); exact Ho).
      unfold lonDegPerChunk, latDegPerChunk; rewrite Hcos; simpl.
      f_equal. f_equal; apply Zfloor_eq; lra.
    + rewrite chunkOf_valid by (try (apply Hv; lra); exact Ho).
      unfold lonDegPerChunk, latDegPerChunk; rewrite Hcos; simpl.
      f_equal. f_equal; apply Zfloor_eq; lra.
Defined.

End ChunkFacts.

Import ChunkFacts.

(** ** The anti-cheat evaluator *)

Module EvaluatorFacts.

(** [eastOf m] is in range and exactly [m] metres from the origin. *)
Lemma eastOf_spec (m : R) :
  0 <= m <= 1000000 ->
  validCoordinate (eastOf m) = true /\
  calculateDistance 0 0 (latitude (eastOf m)) (longitude (eastOf m)) = m /\
  calculateDistance (latitude (eastOf m)) (longitude (eastOf m)) 0 0 = m.
Proof.
  intros Hm.
  pose proof PI_bounds as HPI.
  assert (HE : 0 < earthRadius * PI) by (unfold earthRadius; lra).
  assert (Hlon : 0 <= m * 180 / (earthRadius * PI) <= 180).
  { split.
    - apply le_div_iff; [exact HE | lra].
    - apply div_le_iff; [exact HE | unfold earthRadius; lra]. }
  assert (Hd : calculateDistance 0 0 0 (m * 180 / (earthRadius * PI)) = m).
  { rewrite calculateDistance_equator by lra.
    unfold earthRadius. field. lra. }
  split; [|split].
  - apply validCoordinate_iff. simpl. lra.
  - simpl. exact Hd.
  - rewrite calculateDistance_sym. simpl. exact Hd.
Qed.

Lemma In_when (b : bool) (r q : ReasonCode) :
  In q (when b r) <-> b = true /\ q = r.
Proof.
  unfold when. destruct b; simpl; split.
  - intros [E | []]. split; [reflexivity | now symmetry].
  - intros [_ E]. left. now symmetry.
  - intros [].
  - intros [E _]. discriminate.
Qed.

Lemma In_reasonsOf cfg report prev n pl (r : ReasonCode) :
  In r (reasonsOf cfg report prev n pl) <->
  triggered cfg report prev n pl r = true.
Proof.
  unfold reasonsOf. rewrite !in_app_iff, !In_when.
  destruct r; simpl; split; intros H;
    repeat match goal with
           | H : _ \/ _ |- _ => destruct H
           | H : _ /\ _ |- _ => destruct H
           end; try discriminate; try assumption; tauto.
Qed.

Lemma NoDup_reasonsOf cfg report prev n pl :
  NoDup (reasonsOf cfg report prev n pl).
Proof.
  unfold reasonsOf, when.
  destruct (mockedCheck report), (speedCheck cfg report prev),
    (rateCheck cfg n), (proximityCheck cfg report pl); simpl;
    repeat constructor; simpl; intuition discriminate.
Qed.

Lemma evaluateReport_valid cfg report prev n pl :
  reportInputsValid report prev pl = true ->
  evaluateReport cfg report prev n pl =
  Normal {| flagged := negb (isEmpty (reasonsOf cfg report prev n pl));
            reasons := reasonsOf cfg report prev n pl |}.
Proof.
  intros Hv. unfold evaluateReport. rewrite Hv. reflexivity.
Qed.

Lemma evaluateReport_invalid cfg report prev n pl :
  reportInputsValid report prev pl = false ->
  evaluateReport cfg report prev n pl = Throw InvalidCoordinate.
Proof.
  intros Hv. unfold evaluateReport. rewrite Hv. reflexivity.
Qed.

Lemma includes_iff_triggered cfg report prev n pl (r : ReasonCode) :
  reportInputsValid report prev pl = true ->
  includes (evaluateReport cfg report prev n pl) r <->
  triggered cfg report prev n pl r = true.
Proof.
  intros Hv. unfold includes.
  rewrite evaluateReport_valid by exact Hv.
  rewrite <- In_reasonsOf. split.
  - intros [v [E H]]. injection E as <-. exact H.
  - intros H. eexists. split; [reflexivity | exact H].
Qed.

Lemma isEmpty_false_iff {A : Type} (l : list A) :
  negb (isEmpty l) = true <-> l <> [].
Proof.
  destruct l; simpl; split; intros H; try easy.
Qed.

(** C1: a report with [is_mocked = true] gets [MOCKED] among its reasons
    whatever the other arguments are; [flagged] holds exactly when the
    reasons are not empty; and a reason is reported exactly when its own
    check triggers, independently of the other checks. *)
Theorem evaluateReport_reports_every_triggered_reason :
  forall (cfg : AntiCheatConfig) (report : LocationReport)
         (previousReport : option LocationReport) (recentReportsToday : Z)
         (recentArtifactPlacements : list Coordinates),
    reportInputsValid report previousReport recentArtifactPlacements = true ->
    exists v : AntiCheatVerdict,
      evaluateReport cfg report previousReport recentReportsToday
                     recentArtifactPlacements = Normal v /\
      (is_mocked report = true -> In MOCKED (reasons v)) /\
      (flagged v = true <-> reasons v <> []) /\
      (forall r : ReasonCode,
         In r (reasons v) <->
         triggered cfg report previousReport recentReportsToday
                   recentArtifactPlacements r = true) /\
      NoDup (reasons v).
Proof.
  intros cfg report prev n pl Hv.
  eexists. split; [apply evaluateReport_valid; exact Hv|].
  simpl. repeat split.
  - intros Hm. apply In_reasonsOf. exact Hm.
  - apply isEmpty_false_iff.
  - apply isEmpty_false_iff.
  - apply In_reasonsOf.
  - apply In_reasonsOf.
  - apply NoDup_reasonsOf.
Qed.

(** Reduce record projections on literal records, leaving numbers alone. *)
Ltac fields :=
  cbn [coordinate timestamp accuracy_meters is_mocked reporter_id
       latitude longitude maxSpeed epsilon dailyCap minPlacementDistance
       defaultConfig eastOf] in *.

Lemma reportInputsValid_iff report prev pl :
  reportInputsValid report prev pl = true <->
  forall c, In c (reportCoordinates report prev pl) -> validCoordinate c = true.
Proof. unfold reportInputsValid. apply forallb_forall. Qed.

Lemma reportInputsValid_false_iff report prev pl :
  reportInputsValid report prev pl = false <->
  exists c, In c (reportCoordinates report prev pl) /\ validCoordinate c = false.
Proof.
  unfold reportInputsValid.
  induction (reportCoordinates report prev pl) as [|c l IH]; simpl.
  - split; [discriminate | intros [c [[] _]]].
  - rewrite andb_false_iff, IH. split.
    + intros [H | [c' [Hin H]]]; [exists c | exists c']; tauto.
    + intros [c' [[-> | Hin] H]]; [left | right; exists c']; tauto.
Qed.

(** A sample report at the given place and time. *)
Lemma sample_valid (c p : Coordinates) (t u : R) (m : bool) :
  validCoordinate c = true -> validCoordinate p = true ->
  reportInputsValid (mkLocationReport c t 5 m "u1")
                    (Some (mkLocationReport p u 5 false "u1")) [] = true.
Proof.
  intros Hc Hp. unfold reportInputsValid, reportCoordinates. simpl.
  rewrite Hc, Hp. reflexivity.
Qed.

Lemma origin_valid : validCoordinate (mkCoordinates 0 0) = true.
Proof. apply validCoordinate_iff. simpl. lra. Qed.

(** A mocked report, sent as the fourth of the day from the origin. *)
Lemma evaluateReport_reports_every_triggered_reason_witness :
  exists v : AntiCheatVerdict,
    evaluateReport (defaultConfig 0.001)
      (mkLocationReport (mkCoordinates 0 0) 60 5 true "u1")
      (Some (mkLocationReport (mkCoordinates 0 0) 0 5 false "u1")) 3 []
    = Normal v /\
    In MOCKED (reasons v) /\ In RATE_LIMIT_EXCEEDED (reasons v) /\
    flagged v = true.
Proof.
  destruct (evaluateReport_reports_every_triggered_reason
              (defaultConfig 0.001)
              (mkLocationReport (mkCoordinates 0 0) 60 5 true "u1")
              (Some (mkLocationReport (mkCoordinates 0 0) 0 5 false "u1"))
              3 [] (sample_valid _ _ _ _ _ origin_valid origin_valid))
    as (v & E & Hmock & Hflag & Hall & _).
  exists v. split; [exact E|].
  assert (Hm : In MOCKED (reasons v)) by (apply Hmock; reflexivity).
  split; [exact Hm|]. split.
  - apply Hall. reflexivity.
  - apply Hflag. intros Hnil. rewrite Hnil in Hm. exact Hm.
Defined.

(** *** Impossible speed *)



Lemma not_includes_of_throw (r : ReasonCode) (e : GeoError) :
  ~ includes (Throw e) r.
Proof. intros [v [E _]]. discriminate. Qed.

Lemma no_previous_no_speed cfg report n pl :
  ~ includes (evaluateReport cfg report None n pl) IMPOSSIBLE_SPEED.
Proof.
  destruct (reportInputsValid report None pl) eqn:Hv.
  - rewrite includes_iff_triggered by exact Hv. simpl. discriminate.
  - rewrite evaluateReport_invalid by exact Hv. apply not_includes_of_throw.
Qed.






(** *** Daily cap *)

Lemma sample_valid_first (c : Coordinates) (t : R) (m : bool)
    (pl : list Coordinates) :
  validCoordinate c = true ->
  forallb validCoordinate pl = true ->
  reportInputsValid (mkLocationReport c t 5 m "u1") None pl = true.
Proof.
  intros Hc Hpl. unfold reportInputsValid, reportCoordinates.
  cbn [coordinate app forallb]. rewrite Hc, Hpl. reflexivity.
Qed.

(** C7: [RATE_LIMIT_EXCEEDED] is reported exactly when the day's count has
    reached the configured cap; with cap 3, a count of 3 is reported and a
    count of 2 is not. *)
Theorem rate_limit_iff_cap_reached :
  forall (cfg : AntiCheatConfig) (report : LocationReport)
         (previousReport : option LocationReport)
         (recentArtifactPlacements : list Coordinates),
    reportInputsValid report previousReport recentArtifactPlacements = true ->
    (forall recentReportsToday : Z,
       includes (evaluateReport cfg report previousReport recentReportsToday
                                recentArtifactPlacements) RATE_LIMIT_EXCEEDED
       <-> (dailyCap cfg <= recentReportsToday)%Z) /\
    (dailyCap cfg = 3%Z ->
     includes (evaluateReport cfg report previousReport 3
                              recentArtifactPlacements) RATE_LIMIT_EXCEEDED /\
     ~ includes (evaluateReport cfg report previousReport 2
                                recentArtifactPlacements) RATE_LIMIT_EXCEEDED).
Proof.
  intros cfg report prev pl Hv.
  assert (Hiff : forall n : Z,
            includes (evaluateReport cfg report prev n pl) RATE_LIMIT_EXCEEDED
            <-> (dailyCap cfg <= n)%Z).
  { intros n. rewrite includes_iff_triggered by exact Hv.
    simpl. unfold rateCheck. apply Z.leb_le. }
  split; [exact Hiff|].
  intros Hcap. rewrite !Hiff, Hcap. lia.
Qed.

(** The third and the fourth report of a day under the default cap. *)
Lemma rate_limit_iff_cap_reached_witness :
  includes (evaluateReport (defaultConfig 0.001)
              (mkLocationReport (mkCoordinates 0 0) 60 5 false "u1") None 3 [])
           RATE_LIMIT_EXCEEDED /\
  ~ includes (evaluateReport (defaultConfig 0.001)
                (mkLocationReport (mkCoordinates 0 0) 60 5 false "u1") None 2 [])
             RATE_LIMIT_EXCEEDED.
Proof.
  apply (proj2 (rate_limit_iff_cap_reached (defaultConfig 0.001)
                  (mkLocationReport (mkCoordinates 0 0) 60 5 false "u1")
                  None []
                  (sample_valid_first _ _ _ [] origin_valid eq_refl))).
  reflexivity.
Defined.

(** *** Distance to earlier placements *)

Lemma proximityCheck_iff cfg report pl :
  proximityCheck cfg report pl = true <->
  exists p, In p pl /\
    calculateDistance (latitude p) (longitude p)
      (latitude (coordinate report)) (longitude (coordinate report))
    <= minPlacementDistance cfg.
Proof.
  unfold proximityCheck. rewrite existsb_exists.
  split; intros [p [Hin H]]; exists p; split; try exact Hin;
    unfold tooClose in *; now apply Rleb_true_iff.
Qed.

(** C8: [TOO_CLOSE_TO_EXISTING] is reported exactly when some earlier
    placement lies within the configured distance of the report; under the
    20 m cap a placement 15 m away is reported, and placements 25 m away are
    not. *)
Theorem too_close_iff_placement_within_cap :
  forall (cfg : AntiCheatConfig) (report : LocationReport)
         (previousReport : option LocationReport) (recentReportsToday : Z)
         (recentArtifactPlacements : list Coordinates),
    reportInputsValid report previousReport recentArtifactPlacements = true ->
    let distanceTo (p : Coordinates) :=
      calculateDistance (latitude p) (longitude p)
        (latitude (coordinate report)) (longitude (coordinate report)) in
    let verdict := evaluateReport cfg report previousReport recentReportsToday
                                  recentArtifactPlacements in
    (includes verdict TOO_CLOSE_TO_EXISTING <->
     exists p, In p recentArtifactPlacements /\
               distanceTo p <= minPlacementDistance cfg) /\
    (minPlacementDistance cfg = 20 ->
     (exists p, In p recentArtifactPlacements /\ distanceTo p = 15) ->
     includes verdict TOO_CLOSE_TO_EXISTING) /\
    (minPlacementDistance cfg = 20 ->
     (forall p, In p recentArtifactPlacements -> distanceTo p = 25) ->
     ~ includes verdict TOO_CLOSE_TO_EXISTING).
Proof.
  intros cfg report prev n pl Hv distanceTo verdict.
  assert (Hiff : includes verdict TOO_CLOSE_TO_EXISTING <->
                 exists p, In p pl /\ distanceTo p <= minPlacementDistance cfg).
  { unfold verdict. rewrite includes_iff_triggered by exact Hv.
    simpl. apply proximityCheck_iff. }
  split; [exact Hiff|]. split.
  - intros Hcap [p [Hin Hp]]. apply Hiff.
    exists p. split; [exact Hin|]. rewrite Hcap, Hp. lra.
  - intros Hcap Hall Hinc. apply Hiff in Hinc.
    destruct Hinc as [p [Hin Hp]].
    rewrite Hcap, (Hall p Hin) in Hp. lra.
Qed.

(** A report at the origin, with an earlier placement 15 m east of it, and
    with one 25 m east of it. *)
Lemma too_close_iff_placement_within_cap_witness :
  includes (evaluateReport (defaultConfig 0.001)
              (mkLocationReport (mkCoordinates 0 0) 60 5 false "u1") None 0
              [eastOf 15])
           TOO_CLOSE_TO_EXISTING /\
  ~ includes (evaluateReport (defaultConfig 0.001)
                (mkLocationReport (mkCoordinates 0 0) 60 5 false "u1") None 0
                [eastOf 25])
             TOO_CLOSE_TO_EXISTING.
Proof.
  destruct (eastOf_spec 15) as (Hv15 & _ & Hd15); [lra|].
  destruct (eastOf_spec 25) as (Hv25 & _ & Hd25); [lra|].
  split.
  - refine (proj1 (proj2 (too_close_iff_placement_within_cap
              (defaultConfig 0.001)
              (mkLocationReport (mkCoordinates 0 0) 60 5 false "u1")
              None 0 [eastOf 15] _)) _ _).
    + apply sample_valid_first; [exact origin_valid|].
      cbn [forallb]. rewrite Hv15. reflexivity.
    + reflexivity.
    + exists (eastOf 15). split; [left; reflexivity | exact Hd15].
  - refine (proj2 (proj2 (too_close_iff_placement_within_cap
              (defaultConfig 0.001)
              (mkLocationReport (mkCoordinates 0 0) 60 5 false "u1")
              None 0 [eastOf 25] _)) _ _).
    + apply sample_valid_first; [exact origin_valid|].
      cbn [forallb]. rewrite Hv25. reflexivity.
    + reflexivity.
    + intros p [<- | []]. exact Hd25.
Defined.

(** *** Failure modes *)

(** C9, as stated, fails: latitude 91 is out of range, and neither
    [distanceMeters] nor [isWithinRadius] fails with [InvalidCoordinate]
    there; both return an ordinary result. *)
Lemma out_of_range_latitude_returns :
  validCoordinate (mkCoordinates 91 0) = false /\
  distanceMeters (mkCoordinates 91 0) (mkCoordinates 91 0) = Normal 0 /\
  ~ fails (distanceMeters (mkCoordinates 91 0) (mkCoordinates 91 0))
          InvalidCoordinate /\
  isWithinRadius (Some (mkCoordinates 91 0)) 91 0 50 = Normal true /\
  ~ fails (isWithinRadius (Some (mkCoordinates 91 0)) 91 0 50)
          InvalidCoordinate.
Proof.
  assert (Hd : distanceMeters (mkCoordinates 91 0) (mkCoordinates 91 0)
               = Normal 0)
    by (unfold distanceMeters; rewrite calculateDistance_same; reflexivity).
  assert (Hw : isWithinRadius (Some (mkCoordinates 91 0)) 91 0 50 = Normal true).
  { unfold isWithinRadius. fields. rewrite calculateDistance_same.
    f_equal. apply Rleb_true_iff. lra. }
  split; [|split; [exact Hd | split; [|split; [exact Hw|]]]].
  - apply validCoordinate_false_iff. fields. lra.
  - unfold fails. rewrite Hd. discriminate.
  - unfold fails. rewrite Hw. discriminate.
Qed.

Lemma validLatitude_false_iff (lat : R) :
  validLatitude lat = false <-> lat < -90 \/ 90 < lat.
Proof.
  rewrite <- not_true_iff_false, validLatitude_iff.
  split; [intros H | intros H1 H2; lra].
  destruct (Rlt_dec lat (-90)); [tauto|].
  destruct (Rlt_dec 90 lat); [tauto|].
  exfalso; apply H; lra.
Qed.

(** [chunkOf] either receives in-range input and returns a chunk, or
    receives an out-of-range latitude or longitude and fails. *)
Lemma chunkOf_cases (coord : Coordinates) (size origin : R) :
  ((-90 <= latitude coord <= 90) /\ (-180 <= longitude coord <= 180) /\
   (-90 <= origin <= 90)) /\
  (exists k, chunkOf coord size origin = Normal k)
  \/
  (latitude coord < -90 \/ 90 < latitude coord \/
   longitude coord < -180 \/ 180 < longitude coord \/
   origin < -90 \/ 90 < origin) /\
  chunkOf coord size origin = Throw InvalidCoordinate.
Proof.
  unfold chunkOf.
  destruct (validCoordinate coord) eqn:Hc; cbn [andb].
  - apply validCoordinate_iff in Hc.
    destruct (validLatitude origin) eqn:Ho.
    + apply validLatitude_iff in Ho. left.
      split; [tauto | eexists; reflexivity].
    + apply validLatitude_false_iff in Ho. right.
      split; [tauto | reflexivity].
  - apply validCoordinate_false_iff in Hc. right.
    split; [tauto | reflexivity].
Qed.

(** C9, amended: [distanceMeters] and [isWithinRadius] validate nothing and
    never fail; [chunkOf] and [evaluateReport] succeed on in-range input and
    fail, with [InvalidCoordinate] and nothing else, exactly when a latitude
    or longitude they receive is out of range; a verdict, flagged or not, is
    an ordinary result. *)
Theorem failure_modes :
  (forall a b : Coordinates, succeeds (distanceMeters a b)) /\
  (forall (cur : option Coordinates) (targetLat targetLng radiusMeters : R),
     succeeds (isWithinRadius cur targetLat targetLng radiusMeters)) /\
  (forall (coord : Coordinates) (size origin : R),
     (fails (chunkOf coord size origin) InvalidCoordinate <->
      latitude coord < -90 \/ 90 < latitude coord \/
      longitude coord < -180 \/ 180 < longitude coord \/
      origin < -90 \/ 90 < origin) /\
     (succeeds (chunkOf coord size origin) <->
      (-90 <= latitude coord <= 90) /\ (-180 <= longitude coord <= 180) /\
      (-90 <= origin <= 90)) /\
     ~ fails (chunkOf coord size origin) InvalidRadius) /\
  (forall (cfg : AntiCheatConfig) (report : LocationReport)
          (previousReport : option LocationReport) (recentReportsToday : Z)
          (recentArtifactPlacements : list Coordinates),
     let verdict := evaluateReport cfg report previousReport recentReportsToday
                                   recentArtifactPlacements in
     (fails verdict InvalidCoordinate <->
      exists c,
        In c (reportCoordinates report previousReport recentArtifactPlacements) /\
        validCoordinate c = false) /\
     (succeeds verdict <->
      forall c,
        In c (reportCoordinates report previousReport recentArtifactPlacements) ->
        validCoordinate c = true) /\
     ~ fails verdict InvalidRadius).
Proof.
  split; [|split; [|split]].
  - intros a b. eexists. reflexivity.
  - intros cur targetLat targetLng radiusMeters.
    destruct cur; eexists; reflexivity.
  - intros coord size origin.
    destruct (chunkOf_cases coord size origin) as [[Hin [k E]] | [Hout E]];
      unfold fails, succeeds; rewrite E.
    + split; [|split]; try discriminate.
      * split; [discriminate | intros H; exfalso; lra].
      * split; [intros _; exact Hin | intros _; exists k; reflexivity].
    + split; [|split]; try discriminate.
      * split; [intros _; exact Hout | reflexivity].
      * split; [intros [v Hv]; discriminate | intros H; exfalso; lra].
  - intros cfg report prev n pl verdict. unfold verdict, fails, succeeds.
    rewrite <- reportInputsValid_false_iff, <- reportInputsValid_iff.
    unfold evaluateReport.
    destruct (reportInputsValid report prev pl); (split; [|split]);
      try discriminate; split; try discriminate; try reflexivity.
    + intros _. eexists. reflexivity.
    + intros [v E]. discriminate.
Qed.

End EvaluatorFacts.

(** ** The location store *)

Module LocationStoreFacts.

Import LocationStore.

Lemma run_app (us vs : list StoreUpdate) (s : LocationState) :
  run (us ++ vs) s = run vs (run us s).
Proof. unfold run. apply fold_left_app. Qed.

Lemma reachable_initial : reachable initialState.
Proof. exists []. reflexivity. Qed.

Lemma reachable_run (us : list StoreUpdate) (s : LocationState) :
  reachable s -> reachable (run us s).
Proof.
  intros [vs ->]. exists (vs ++ us). now rewrite run_app.
Qed.

(** Every call site passes [set] a literal that mentions both location
    fields with one value, or neither. *)
Lemma patchOf_writesBothAlike (u : StoreUpdate) : writesBothAlike (patchOf u).
Proof. destruct u; reflexivity. Qed.

(** A [set] whose literal treats both fields alike keeps them equal. *)
Lemma set_preserves (p : Partial) (s : LocationState) :
  writesBothAlike p -> locationsAgree s -> locationsAgree (set p s).
Proof.
  unfold writesBothAlike, locationsAgree, set. simpl.
  intros Hp Hs. rewrite Hp, Hs. reflexivity.
Qed.

Lemma apply_preserves (u : StoreUpdate) (s : LocationState) :
  locationsAgree s -> locationsAgree (apply u s).
Proof. apply set_preserves, patchOf_writesBothAlike. Qed.

Lemma run_preserves (us : list StoreUpdate) (s : LocationState) :
  locationsAgree s -> locationsAgree (run us s).
Proof.
  revert s. induction us as [|u us IH]; intros s Hs.
  - exact Hs.
  - simpl. apply IH, apply_preserves, Hs.
Qed.

Lemma writesLocation_cases (u : StoreUpdate) :
  writesLocation u <->
  (exists location, u = LocationFetched location) \/
  (exists location, u = WatchUpdate location) \/
  (exists location, u = LocationSet location) \/
  u = StoreReset.
Proof.
  unfold writesLocation. split.
  - destruct u; simpl; intros [H | H]; try congruence; eauto 6.
  - intros [[l ->] | [[l ->] | [[l ->] | ->]]]; simpl; left; discriminate.
Qed.

(** The actions issue only [set] calls of the store, so they lead from
    reachable states to reachable states. *)
Lemma getCurrentLocation_reachable s existing requested position :
  reachable s ->
  reachable (run (fst (getCurrentLocation s existing requested position)) s).
Proof. apply reachable_run. Qed.

(** On success [getCurrentLocation] returns the coordinates it stored in
    both fields. *)
Lemma getCurrentLocation_success s existing requested position c :
  snd (getCurrentLocation s existing requested position) = Some c ->
  let s' := run (fst (getCurrentLocation s existing requested position)) s in
  currentLocation s' = Some c /\ lastKnownLocation s' = Some c.
Proof.
  unfold getCurrentLocation.
  destruct (permissionGranted s).
  - destruct position as [location | code]; simpl; [|discriminate].
    intros E. injection E as <-. split; reflexivity.
  - destruct (requestPermission existing requested) as [asked ok] eqn:Hreq.
    destruct ok; [|discriminate].
    destruct position as [location | code]; simpl; [|discriminate].
    intros E. injection E as <-.
    rewrite run_app. split; reflexivity.
Qed.

Lemma setLocation_result (c : Coordinates) (s : LocationState) :
  currentLocation (run (setLocation c) s) = Some c /\
  lastKnownLocation (run (setLocation c) s) = Some c.
Proof. split; reflexivity. Qed.

Lemma reset_result (s : LocationState) : run reset s = initialState.
Proof. reflexivity. Qed.

(** C10: in every reachable state of the store [currentLocation] equals
    [lastKnownLocation].  Both start as [null]; every [set] call writes the
    two fields together with one value or leaves both alone; the calls that
    write them are those of [getCurrentLocation]'s success branch, the
    [watchLocation] callback, [setLocation] and [reset]; so a non-null
    [currentLocation] is never accompanied by a different
    [lastKnownLocation]. *)
Theorem store_locations_agree :
  (currentLocation initialState = None /\
   lastKnownLocation initialState = None) /\
  (forall u : StoreUpdate,
     p_currentLocation (patchOf u) = p_lastKnownLocation (patchOf u)) /\
  (forall u : StoreUpdate,
     writesLocation u <->
     (exists location, u = LocationFetched location) \/
     (exists location, u = WatchUpdate location) \/
     (exists location, u = LocationSet location) \/
     u = StoreReset) /\
  (forall s : LocationState,
     reachable s ->
     currentLocation s = lastKnownLocation s /\
     (forall c, currentLocation s = Some c -> lastKnownLocation s = Some c)).
Proof.
  split; [split; reflexivity|].
  split; [exact patchOf_writesBothAlike|].
  split; [exact writesLocation_cases|].
  intros s [us ->].
  assert (H : locationsAgree (run us initialState))
    by (apply run_preserves; reflexivity).
  unfold locationsAgree in H. split; [exact H|].
  intros c Hc. rewrite <- H. exact Hc.
Qed.

(** The state after a fetched position, a manual override and a further
    watch update. *)
Lemma store_locations_agree_witness :
  let here := mkLocationObject 10.7769 106.7009 (Some 5) None None in
  let there := mkLocationObject 10.78 106.7 (Some 8) None (Some 1) in
  let s := run [PermissionKnown granted; LoadingStarted; LocationFetched here;
                LocationSet (mkCoordinates 0 0); WatchStarted;
                WatchUpdate there] initialState in
  currentLocation s = lastKnownLocation s /\
  lastKnownLocation s = Some (coordsOf there).
Proof.
  intros here there s.
  destruct (proj2 (proj2 (proj2 store_locations_agree)) s) as [H1 H2].
  - exists [PermissionKnown granted; LoadingStarted; LocationFetched here;
            LocationSet (mkCoordinates 0 0); WatchStarted; WatchUpdate there].
    reflexivity.
  - split; [exact H1|]. apply H2. reflexivity.
Defined.

End LocationStoreFacts.

(** ** More on the haversine distance *)

Module DistanceFacts.

Lemma acos_decreasing_le (x y : R) :
  -1 <= x -> x <= y -> y <= 1 -> acos y <= acos x.
Proof.
  intros Hx Hxy Hy.
  pose proof (acos_bound x) as [Hx0 Hx1].
  pose proof (acos_bound y) as [Hy0 Hy1].
  apply cos_decr_0; try assumption.
  rewrite !cos_acos by lra. exact Hxy.
Qed.

(** The central cosine is the scalar product of the two unit vectors. *)
Lemma centralCosine_dot (lat1 lon1 lat2 lon2 : R) :
  let p1 := lat1 * PI / 180 in let l1 := lon1 * PI / 180 in
  let p2 := lat2 * PI / 180 in let l2 := lon2 * PI / 180 in
  centralCosine lat1 lon1 lat2 lon2 =
  (cos p1 * cos l1) * (cos p2 * cos l2) +
  (cos p1 * sin l1) * (cos p2 * sin l2) +
  sin p1 * sin p2.
Proof.
  intros p1 l1 p2 l2. unfold centralCosine.
  replace ((lon2 - lon1) * PI / 180) with (l2 - l1) by (unfold l1, l2; field).
  rewrite cos_minus. fold p1 p2. ring.
Qed.

Lemma unit_vector (p l : R) :
  (cos p * cos l) * (cos p * cos l) + (cos p * sin l) * (cos p * sin l)
  + sin p * sin p = 1.
Proof.
  pose proof (sin2_cos2 p) as Hp. pose proof (sin2_cos2 l) as Hl.
  unfold Rsqr in Hp, Hl.
  replace (cos p * cos l * (cos p * cos l) + cos p * sin l * (cos p * sin l)
           + sin p * sin p)
    with (cos p * cos p * (sin l * sin l + cos l * cos l) + sin p * sin p)
    by ring.
  rewrite Hl. lra.
Qed.

(** The Gram determinant of three unit vectors is the square of their
    triple product. *)
Lemma gram_nonneg (x1 y1 z1 x2 y2 z2 x3 y3 z3 : R) :
  x1 * x1 + y1 * y1 + z1 * z1 = 1 ->
  x2 * x2 + y2 * y2 + z2 * z2 = 1 ->
  x3 * x3 + y3 * y3 + z3 * z3 = 1 ->
  let a := x1 * x2 + y1 * y2 + z1 * z2 in
  let b := x2 * x3 + y2 * y3 + z2 * z3 in
  let c := x1 * x3 + y1 * y3 + z1 * z3 in
  0 <= 1 - a * a - b * b - c * c + 2 * a * b * c.
Proof.
  intros H1 H2 H3 a b c.
  set (d := x1 * (y2 * z3 - z2 * y3) - y1 * (x2 * z3 - z2 * x3)
            + z1 * (x2 * y3 - y2 * x3)).
  assert (E : (x1 * x1 + y1 * y1 + z1 * z1) * (x2 * x2 + y2 * y2 + z2 * z2)
              * (x3 * x3 + y3 * y3 + z3 * z3)
              - (x1 * x1 + y1 * y1 + z1 * z1) * (b * b)
              - (x2 * x2 + y2 * y2 + z2 * z2) * (c * c)
              - (x3 * x3 + y3 * y3 + z3 * z3) * (a * a)
              + 2 * a * b * c = d * d)
    by (unfold a, b, c, d; ring).
  rewrite H1, H2, H3 in E.
  pose proof (Rle_0_sqr d) as Hd. unfold Rsqr in Hd. lra.
Qed.

Lemma acos_triangle (a b c : R) :
  -1 <= a <= 1 -> -1 <= b <= 1 -> -1 <= c <= 1 ->
  0 <= 1 - a * a - b * b - c * c + 2 * a * b * c ->
  acos c <= acos a + acos b.
Proof.
  intros Ha Hb Hc Hg.
  pose proof (acos_bound a) as Hba.
  pose proof (acos_bound b) as Hbb.
  pose proof (acos_bound c) as Hbc.
  destruct (Rle_dec PI (acos a + acos b)) as [Hbig | Hsmall]; [lra|].
  apply cos_decr_0; try lra.
  rewrite cos_plus, !cos_acos, !sin_acos by lra.
  assert (Hsa : 0 <= 1 - a²) by (unfold Rsqr; nra).
  assert (Hsb : 0 <= 1 - b²) by (unfold Rsqr; nra).
  rewrite <- sqrt_mult by assumption.
  destruct (Rle_dec (a * b - c) 0) as [Hneg | Hpos].
  - pose proof (sqrt_pos ((1 - a²) * (1 - b²))). lra.
  - assert (Hle : (a * b - c)² <= (1 - a²) * (1 - b²)) by (unfold Rsqr; nra).
    apply sqrt_le_1 in Hle; [|apply Rle_0_sqr | nra].
    rewrite sqrt_Rsqr in Hle by lra. lra.
Qed.

(** X2: the distance satisfies the triangle inequality: going through a
    third point is never shorter than going directly. *)
Theorem calculateDistance_triangle_inequality :
  forall lat1 lon1 lat2 lon2 lat3 lon3 : R,
    calculateDistance lat1 lon1 lat3 lon3 <=
    calculateDistance lat1 lon1 lat2 lon2 +
    calculateDistance lat2 lon2 lat3 lon3.
Proof.
  intros lat1 lon1 lat2 lon2 lat3 lon3.
  rewrite !calculateDistance_acos.
  pose proof (centralCosine_bounds lat1 lon1 lat2 lon2) as B12.
  pose proof (centralCosine_bounds lat2 lon2 lat3 lon3) as B23.
  pose proof (centralCosine_bounds lat1 lon1 lat3 lon3) as B13.
  assert (Hg : 0 <= 1
    - centralCosine lat1 lon1 lat2 lon2 * centralCosine lat1 lon1 lat2 lon2
    - centralCosine lat2 lon2 lat3 lon3 * centralCosine lat2 lon2 lat3 lon3
    - centralCosine lat1 lon1 lat3 lon3 * centralCosine lat1 lon1 lat3 lon3
    + 2 * centralCosine lat1 lon1 lat2 lon2 * centralCosine lat2 lon2 lat3 lon3
        * centralCosine lat1 lon1 lat3 lon3).
  { rewrite !centralCosine_dot.
    apply gram_nonneg; apply unit_vector. }
  pose proof (acos_triangle _ _ _ B12 B23 B13 Hg) as Ht.
  unfold earthRadius. lra.
Qed.

(** Adding a full turn to a longitude does not change the distance. *)
Lemma haversine_turn (lat1 lon1 lat2 lon2 : R) :
  haversine lat1 lon1 lat2 (lon2 + 360) = haversine lat1 lon1 lat2 lon2.
Proof.
  unfold haversine.
  replace ((lon2 + 360 - lon1) * PI / 180 / 2)
    with ((lon2 - lon1) * PI / 180 / 2 + PI) by field.
  rewrite neg_sin. ring.
Qed.

Lemma calculateDistance_turn (lat1 lon1 lat2 lon2 : R) :
  calculateDistance lat1 lon1 lat2 (lon2 + 360) =
  calculateDistance lat1 lon1 lat2 lon2.
Proof. unfold calculateDistance. rewrite haversine_turn. reflexivity. Qed.

Lemma calculateDistance_shift (lat1 lon1 lat2 lon2 t : R) :
  calculateDistance lat1 (lon1 + t) lat2 (lon2 + t) =
  calculateDistance lat1 lon1 lat2 lon2.
Proof.
  unfold calculateDistance, haversine.
  replace (lon2 + t - (lon1 + t)) with (lon2 - lon1) by ring.
  reflexivity.
Qed.

Lemma calculateDistance_bounds (lat1 lon1 lat2 lon2 : R) :
  0 <= calculateDistance lat1 lon1 lat2 lon2 <= earthRadius * PI /\
  earthRadius * PI < 20070000.
Proof.
  rewrite calculateDistance_acos.
  pose proof (acos_bound (centralCosine lat1 lon1 lat2 lon2)) as Hb.
  pose proof PI_bounds as HPI.
  unfold earthRadius. repeat split; nra.
Qed.

(** X1: the distance is never negative and never more than half the
    circumference of the sphere, which is below 20,070 km. *)
Theorem calculateDistance_range :
  forall lat1 lon1 lat2 lon2 : R,
    0 <= calculateDistance lat1 lon1 lat2 lon2 <= earthRadius * PI /\
    earthRadius * PI < 20070000.
Proof. exact calculateDistance_bounds. Qed.

(** X3: longitudes are taken modulo a full turn: adding 360 degrees to
    either longitude, or one offset to both, leaves the distance unchanged;
    so two points of the equator up to 360 degrees apart are measured the
    short way round. *)
Theorem calculateDistance_longitude_wraps :
  (forall lat1 lon1 lat2 lon2 : R,
     calculateDistance lat1 lon1 lat2 (lon2 + 360) =
     calculateDistance lat1 lon1 lat2 lon2 /\
     calculateDistance lat1 (lon1 + 360) lat2 lon2 =
     calculateDistance lat1 lon1 lat2 lon2) /\
  (forall lat1 lon1 lat2 lon2 t : R,
     calculateDistance lat1 (lon1 + t) lat2 (lon2 + t) =
     calculateDistance lat1 lon1 lat2 lon2) /\
  (forall lon d : R,
     0 <= d <= 360 ->
     calculateDistance 0 lon 0 (lon + d) =
     earthRadius * (Rmin d (360 - d) * PI / 180)).
Proof.
  split; [|split].
  - intros lat1 lon1 lat2 lon2. split.
    + apply calculateDistance_turn.
    + rewrite calculateDistance_sym, calculateDistance_turn.
      apply calculateDistance_sym.
  - apply calculateDistance_shift.
  - intros lon d Hd.
    destruct (Rle_dec d 180) as [Hs | Hl].
    + rewrite Rmin_left by lra.
      rewrite calculateDistance_equator by lra.
      f_equal. field.
    + rewrite Rmin_right by lra.
      rewrite calculateDistance_sym.
      rewrite <- (calculateDistance_turn 0 (lon + d) 0 lon).
      rewrite calculateDistance_equator by lra.
      f_equal. field.
Qed.

(** Half a turn and a bit along the equator. *)
Lemma calculateDistance_longitude_wraps_witness :
  calculateDistance 0 10 0 (10 + 350) = earthRadius * (Rmin 350 (360 - 350) * PI / 180).
Proof.
  apply (proj2 (proj2 calculateDistance_longitude_wraps)). lra.
Defined.

(** X4: two points of one meridian are as far apart as their latitudes
    differ, 6371000 * PI / 180 metres (between 110.78 and 111.5 km) to the
    degree, whatever the longitude. *)
Theorem calculateDistance_north_south :
  forall lat1 lat2 lon : R,
    Rabs (lat2 - lat1) <= 180 ->
    calculateDistance lat1 lon lat2 lon =
    Rabs (lat2 - lat1) * (earthRadius * (1 * PI / 180)) /\
    110780 < earthRadius * (1 * PI / 180) < 111500.
Proof.
  intros lat1 lat2 lon H. split; [|exact one_degree_bounds].
  destruct (Rcase_abs (lat2 - lat1)) as [Hn | Hp].
  - rewrite Rabs_left in * by exact Hn.
    rewrite calculateDistance_sym, calculateDistance_meridian by lra. field.
  - rewrite Rabs_right in * by exact Hp.
    rewrite calculateDistance_meridian by lra. field.
Qed.

(** From Ho Chi Minh City's latitude two degrees south. *)
Lemma calculateDistance_north_south_witness :
  calculateDistance 10.7769 106.7009 8.7769 106.7009 =
  Rabs (8.7769 - 10.7769) * (earthRadius * (1 * PI / 180)).
Proof.
  apply (calculateDistance_north_south 10.7769 8.7769 106.7009).
  apply Rabs_le. lra.
Defined.

(** X5: along a parallel two longitudes are never farther apart than along
    the equator. *)
Theorem calculateDistance_parallel_le_equator :
  forall lat lon1 lon2 : R,
    calculateDistance lat lon1 lat lon2 <= calculateDistance 0 lon1 0 lon2.
Proof.
  intros lat lon1 lon2.
  rewrite !calculateDistance_acos.
  assert (Hle : centralCosine 0 lon1 0 lon2 <= centralCosine lat lon1 lat lon2).
  { rewrite <- !haversine_centralCosine. unfold haversine.
    replace ((lat - lat) * PI / 180 / 2) with 0 by field.
    replace ((0 - 0) * PI / 180 / 2) with 0 by field.
    replace (0 * PI / 180) with 0 by field.
    rewrite sin_0, cos_0.
    pose proof (sin2_cos2 (lat * PI / 180)) as Hsc. unfold Rsqr in Hsc.
    set (s := sin ((lon2 - lon1) * PI / 180 / 2)).
    set (c := cos (lat * PI / 180)) in *.
    set (z := sin (lat * PI / 180)) in *.
    clearbody s c z. nra. }
  pose proof (centralCosine_bounds 0 lon1 0 lon2) as B0.
  pose proof (centralCosine_bounds lat lon1 lat lon2) as B1.
  pose proof (acos_decreasing_le _ _ (proj1 B0) Hle (proj2 B1)).
  unfold earthRadius. lra.
Qed.



End DistanceFacts.

(** ** The [useLocation] hook *)

Module LocationHookFacts.

Import LocationStore LocationHook.
Open Scope string_scope.







End LocationHookFacts.

(** ** Outcomes of the store's actions *)

Module StoreActionFacts.

Import LocationStore LocationStoreFacts.

(** The three ways [requestPermission] can end. *)
Lemma requestPermission_cases (existing requested : reply PermissionStatus) :
  requestPermission existing requested = ([PermissionFailed], false) \/
  requestPermission existing requested = ([PermissionKnown granted], true) \/
  exists status,
    isGranted status = false /\
    requestPermission existing requested
    = ([PermissionKnown status; PermissionDenied], false).
Proof.
  unfold requestPermission.
  destruct existing as [p | c]; [|now left].
  destruct p; simpl; try (now right; left);
    (destruct requested as [q | c]; [|now left]);
    destruct q; simpl; try (now right; left);
    right; right; eexists; split; try reflexivity; reflexivity.
Qed.

Lemma requestPermission_effect
    (existing requested : reply PermissionStatus) (s : LocationState) :
  let s' := run (fst (requestPermission existing requested)) s in
  (snd (requestPermission existing requested) = true ->
   permissionStatus s' = Some granted /\ error s' = error s) /\
  (snd (requestPermission existing requested) = false ->
   error s' <> None) /\
  currentLocation s' = currentLocation s /\
  lastKnownLocation s' = lastKnownLocation s /\
  isLoading s' = isLoading s /\
  isWatching s' = isWatching s.
Proof.
  destruct (requestPermission_cases existing requested)
    as [E | [E | [status [Hs E]]]]; rewrite E; simpl;
    repeat split; try discriminate; try reflexivity.
Qed.

(** X8: [requestPermission] answers [true] only with the permission stored
    as granted, and [false] only with an error message stored; it never
    touches the locations, [isLoading] or [isWatching]. *)
Theorem requestPermission_outcome :
  forall (existing requested : reply PermissionStatus) (s : LocationState),
    let s' := run (fst (requestPermission existing requested)) s in
    (snd (requestPermission existing requested) = true ->
     permissionStatus s' = Some granted /\ error s' = error s) /\
    (snd (requestPermission existing requested) = false ->
     error s' <> None) /\
    currentLocation s' = currentLocation s /\
    lastKnownLocation s' = lastKnownLocation s /\
    isLoading s' = isLoading s /\
    isWatching s' = isWatching s.
Proof. exact requestPermission_effect. Qed.

(** The platform grants on request; and the platform refuses. *)
Lemma requestPermission_outcome_witness :
  permissionStatus
    (run (fst (requestPermission (Resolved undetermined) (Resolved granted)))
         initialState) = Some granted /\
  error
    (run (fst (requestPermission (Resolved undetermined) (Resolved denied)))
         initialState) <> None.
Proof.
  split.
  - apply (proj1 (requestPermission_outcome
                    (Resolved undetermined) (Resolved granted) initialState)).
    reflexivity.
  - apply (proj1 (proj2 (requestPermission_outcome
                    (Resolved undetermined) (Resolved denied) initialState))).
    reflexivity.
Defined.

Lemma requestPermission_granted (existing requested : reply PermissionStatus)
    (s : LocationState) :
  snd (requestPermission existing requested) = true ->
  permissionGranted (run (fst (requestPermission existing requested)) s) = true.
Proof.
  intros H.
  destruct (requestPermission_effect existing requested s) as ((Hp & _) & _).
  - exact H.
  - unfold permissionGranted. rewrite Hp. reflexivity.
Qed.

(** X9: when [getCurrentLocation] returns coordinates, both location fields
    hold them, taken from the platform's answer, with [isLoading] false and
    no error; when it returns [null] the locations are as before and an
    error message is stored; and it never leaves [isLoading] on after
    finding it off. *)
Theorem getCurrentLocation_outcome :
  forall (s : LocationState) (existing requested : reply PermissionStatus)
         (position : reply LocationObject),
    let result := getCurrentLocation s existing requested position in
    let s' := run (fst result) s in
    match snd result with
    | Some c =>
        currentLocation s' = Some c /\ lastKnownLocation s' = Some c /\
        isLoading s' = false /\ error s' = None /\
        exists location, position = Resolved location /\ c = coordsOf location
    | None =>
        currentLocation s' = currentLocation s /\
        lastKnownLocation s' = lastKnownLocation s /\
        error s' <> None
    end /\
    (isLoading s = false -> isLoading s' = false).
Proof.
  intros s existing requested position. unfold getCurrentLocation.
  destruct (permissionGranted s).
  - destruct position as [location | code]; simpl.
    + repeat split; try reflexivity. eexists; split; reflexivity.
    + repeat split; try reflexivity. discriminate.
  - destruct (requestPermission_cases existing requested)
      as [E | [E | [status [Hs E]]]]; rewrite E.
    + simpl. repeat split; try reflexivity; try discriminate. tauto.
    + destruct position as [location | code]; simpl.
      * repeat split; try reflexivity. eexists; split; reflexivity.
      * repeat split; try reflexivity. discriminate.
    + simpl. repeat split; try reflexivity; try discriminate. tauto.
Qed.

(** A position arrives with permission already granted; and none does. *)
Lemma getCurrentLocation_outcome_witness :
  isLoading
    (run (fst (getCurrentLocation (apply (PermissionKnown granted) initialState)
                 (Rejected None) (Rejected None)
                 (Resolved (mkLocationObject 10.7769 106.7009 (Some 5) None None))))
         (apply (PermissionKnown granted) initialState)) = false /\
  isLoading
    (run (fst (getCurrentLocation (apply (PermissionKnown granted) initialState)
                 (Rejected None) (Rejected None) (Rejected None)))
         (apply (PermissionKnown granted) initialState)) = false.
Proof.
  split.
  - apply (proj2 (getCurrentLocation_outcome
                    (apply (PermissionKnown granted) initialState)
                    (Rejected None) (Rejected None)
                    (Resolved (mkLocationObject 10.7769 106.7009 (Some 5)
                                                None None)))).
    reflexivity.
  - apply (proj2 (getCurrentLocation_outcome
                    (apply (PermissionKnown granted) initialState)
                    (Rejected None) (Rejected None) (Rejected None))).
    reflexivity.
Defined.

(** X10: [watchLocation] does nothing when the store is already watching;
    otherwise it ends either watching with no error, or not watching with
    an error message; in no case does it write a location. *)
Theorem watchLocation_outcome :
  forall (s : LocationState) (existing requested : reply PermissionStatus)
         (subscribed : reply unit),
    let us := watchLocation s existing requested subscribed in
    let s' := run us s in
    (isWatching s = true -> us = []) /\
    (isWatching s = false ->
     (isWatching s' = true /\ error s' = None) \/
     (isWatching s' = false /\ error s' <> None)) /\
    currentLocation s' = currentLocation s /\
    lastKnownLocation s' = lastKnownLocation s.
Proof.
  intros s existing requested subscribed. unfold watchLocation.
  destruct (isWatching s) eqn:Hw.
  - repeat split; try reflexivity. discriminate.
  - split; [discriminate|].
    destruct (permissionGranted s).
    + destruct subscribed; simpl; rewrite ?Hw; repeat split;
        try reflexivity; intros _; [left | right]; split;
        try reflexivity; discriminate.
    + destruct (requestPermission_cases existing requested)
        as [E | [E | [status [Hs E]]]]; rewrite E.
      * simpl; rewrite ?Hw; repeat split; try reflexivity.
        intros _. right. split; [reflexivity | discriminate].
      * destruct subscribed; simpl; rewrite ?Hw; repeat split;
          try reflexivity; intros _; [left | right]; split;
          try reflexivity; discriminate.
      * simpl; rewrite ?Hw; repeat split; try reflexivity.
        intros _. right. split; [reflexivity | discriminate].
Qed.

(** A store that is not watching, with permission granted. *)
Lemma watchLocation_outcome_witness :
  isWatching (run (watchLocation (apply (PermissionKnown granted) initialState)
                                 (Rejected None) (Rejected None) (Resolved tt))
                  (apply (PermissionKnown granted) initialState)) = true /\
  watchLocation (apply WatchStarted initialState)
                (Rejected None) (Rejected None) (Resolved tt) = [].
Proof.
  split.
  - destruct (proj1 (proj2 (watchLocation_outcome
                (apply (PermissionKnown granted) initialState)
                (Rejected None) (Rejected None) (Resolved tt))) eq_refl)
      as [[H _] | [H _]]; [exact H | discriminate H].
  - apply (proj1 (watchLocation_outcome (apply WatchStarted initialState)
                    (Rejected None) (Rejected None) (Resolved tt))).
    reflexivity.
Defined.

End StoreActionFacts.

(** ** Start-up through the hook *)

Module HookStartFacts.

Import LocationStore LocationStoreFacts StoreActionFacts LocationHook.

Lemma run_fetch_granted s e r position :
  permissionGranted s = true ->
  permissionGranted (run (fst (getCurrentLocation s e r position)) s) = true.
Proof.
  intros H. unfold getCurrentLocation. rewrite H.
  destruct position; simpl; exact H.
Qed.

Lemma getCurrentLocation_granted s e r e' r' position :
  permissionGranted s = true ->
  getCurrentLocation s e r position = getCurrentLocation s e' r' position.
Proof. intros H. unfold getCurrentLocation. rewrite H. reflexivity. Qed.

Lemma watchLocation_granted s e r e' r' subscribed :
  permissionGranted s = true ->
  watchLocation s e r subscribed = watchLocation s e' r' subscribed.
Proof. intros H. unfold watchLocation. rewrite H. reflexivity. Qed.

(** X11: [initializeLocation] and [retry] ask the platform for permission
    once: what they do does not depend on the replies a second or third
    request would get.  [initializeLocation] does nothing on a second call;
    both show the alert exactly when permission was not granted and
    [showDeniedAlert] is set, and then leave the location as it was. *)
Theorem hook_asks_permission_once :
  forall (options : UseLocationOptions) (s : LocationState)
         (asked1 asked2 asked3 other2 other3 : PermissionReplies)
         (position : reply LocationObject) (subscribed : reply unit),
    let ok := snd (requestPermission (existing asked1) (requested asked1)) in
    let init := initializeLocation options false s asked1 asked2 asked3
                                   position subscribed in
    let again := retry options true s asked1 asked2 position in
    init = initializeLocation options false s asked1 other2 other3
                              position subscribed /\
    again = retry options true s asked1 other2 position /\
    initializeLocation options true s asked1 asked2 asked3 position subscribed
    = {| updates := []; alertShown := false; hasRequested := true |} /\
    alertShown init = negb ok && showDeniedAlert options /\
    alertShown again = negb ok && showDeniedAlert options /\
    hasRequested init = true /\
    (ok = false ->
     currentLocation (run (updates init) s) = currentLocation s /\
     currentLocation (run (updates again) s) = currentLocation s).
Proof.
  intros options s asked1 asked2 asked3 other2 other3 position subscribed.
  cbv zeta. unfold initializeLocation, retry.
  pose proof (requestPermission_granted (existing asked1) (requested asked1))
    as Hgr.
  destruct (requestPermission (existing asked1) (requested asked1))
    as [u1 ok] eqn:E.
  cbn [fst snd] in *.
  destruct ok.
  - assert (H1 : permissionGranted (run u1 s) = true) by (apply Hgr; reflexivity).
    assert (H0 : permissionGranted (run (clearError ++ u1) s) = true).
    { rewrite run_app. apply Hgr. reflexivity. }
    rewrite (getCurrentLocation_granted (run u1 s) _ _
               (existing other2) (requested other2) position H1).
    rewrite (getCurrentLocation_granted (run (clearError ++ u1) s) _ _
               (existing other2) (requested other2) position H0).
    repeat split; try discriminate.
    destruct (autoWatch options); [|reflexivity].
    rewrite (watchLocation_granted _ (existing asked3) (requested asked3)
               (existing other3) (requested other3) subscribed
               (run_fetch_granted _ _ _ _ H1)).
    reflexivity.
  - repeat split; cbn [updates].
    + destruct (requestPermission_effect (existing asked1) (requested asked1) s)
        as (_ & _ & Hc & _).
      rewrite E in Hc. exact Hc.
    + rewrite run_app.
      destruct (requestPermission_effect (existing asked1) (requested asked1)
                  (run clearError s)) as (_ & _ & Hc & _).
      rewrite E in Hc. cbn [fst] in Hc. rewrite Hc. reflexivity.
Qed.

(** The platform refuses the permission. *)
Lemma hook_asks_permission_once_witness :
  currentLocation
    (run (updates (initializeLocation defaultOptions false initialState
            (mkPermissionReplies (Resolved undetermined) (Resolved denied))
            (mkPermissionReplies (Rejected None) (Rejected None))
            (mkPermissionReplies (Rejected None) (Rejected None))
            (Rejected None) (Rejected None)))
         initialState) = None.
Proof.
  apply (proj1 (proj2 (proj2 (proj2 (proj2 (proj2 (proj2
          (hook_asks_permission_once defaultOptions initialState
             (mkPermissionReplies (Resolved undetermined) (Resolved denied))
             (mkPermissionReplies (Rejected None) (Rejected None))
             (mkPermissionReplies (Rejected None) (Rejected None))
             (mkPermissionReplies (Rejected None) (Rejected None))
             (mkPermissionReplies (Rejected None) (Rejected None))
             (Rejected None) (Rejected None))))))) eq_refl)).
Defined.

End HookStartFacts.

(** ** The position watcher *)

Module WatcherFacts.

Import LocationStore LocationStoreFacts StoreActionFacts Watcher.

Lemma remove_only (h : nat) : List.remove Nat.eq_dec h [h] = [].
Proof. simpl. destruct (Nat.eq_dec h h); [reflexivity | contradiction]. Qed.

(** Removing the stored subscription leaves none live. *)
Lemma removeSubscription_consistent (w : World) :
  watcherConsistent w ->
  removeSubscription (locationSubscription w) (active w) = [].
Proof.
  intros [[Ha _] | [h [Ha [Hl _]]]]; rewrite Ha.
  - destruct (locationSubscription w); reflexivity.
  - rewrite Hl. apply remove_only.
Qed.

Lemma withStore_consistent (w : World) (us : list StoreUpdate) :
  isWatching (run us (store w)) = isWatching (store w) ->
  watcherConsistent w -> watcherConsistent (withStore w us).
Proof.
  intros Hk Hw. unfold watcherConsistent, withStore. cbn [store active
    Watcher.locationSubscription]. rewrite Hk. exact Hw.
Qed.

Lemma subscribe_consistent (subscribed : reply unit) (w : World) :
  watcherConsistent w -> isWatching (store w) = false ->
  watcherConsistent (subscribe subscribed w).
Proof.
  intros Hw Hoff. unfold subscribe.
  rewrite (removeSubscription_consistent w Hw).
  destruct subscribed.
  - right. exists (nextId w). repeat split.
  - left. split; [reflexivity | exact Hoff].
Qed.

Lemma unsubscribe_consistent (us : list StoreUpdate) (w : World) :
  watcherConsistent w -> isWatching (run us (store w)) = false ->
  watcherConsistent (unsubscribe us w).
Proof.
  intros Hw Hoff. left. unfold unsubscribe. cbn [active store].
  split; [apply removeSubscription_consistent, Hw | exact Hoff].
Qed.

Lemma getCurrentLocation_keeps_watching s e r position :
  isWatching (run (fst (getCurrentLocation s e r position)) s) = isWatching s.
Proof.
  unfold getCurrentLocation.
  destruct (permissionGranted s).
  - destruct position; reflexivity.
  - destruct (requestPermission_cases e r) as [E | [E | [st [Hs E]]]];
      rewrite E; try reflexivity.
    destruct position; reflexivity.
Qed.

Lemma exec_consistent (a : Action) (w : World) :
  watcherConsistent w -> watcherConsistent (exec a w).
Proof.
  intros Hw. destruct a; cbn [exec].
  - apply withStore_consistent; [|exact Hw].
    apply requestPermission_effect.
  - apply withStore_consistent; [|exact Hw].
    apply getCurrentLocation_keeps_watching.
  - destruct (isWatching (store w)) eqn:Hoff; [exact Hw|].
    destruct (permissionGranted (store w)).
    + apply subscribe_consistent; assumption.
    + pose proof (requestPermission_effect existing requested (store w))
        as (_ & _ & _ & _ & _ & Hk).
      destruct (requestPermission existing requested) as [asked ok].
      cbn [fst] in Hk.
      assert (Hc : watcherConsistent (withStore w asked))
        by (apply withStore_consistent; assumption).
      destruct ok; [|exact Hc].
      apply subscribe_consistent; [exact Hc|].
      cbn [store withStore]. rewrite Hk. exact Hoff.
  - apply unsubscribe_consistent; [exact Hw | reflexivity].
  - apply withStore_consistent; [reflexivity | exact Hw].
  - apply withStore_consistent; [reflexivity | exact Hw].
  - apply unsubscribe_consistent; [exact Hw | reflexivity].
  - destruct (existsb (Nat.eqb subscription) (active w)); [|exact Hw].
    apply withStore_consistent; [reflexivity | exact Hw].
Qed.

Lemma execAll_consistent (l : list Action) (w : World) :
  watcherConsistent w -> watcherConsistent (execAll l w).
Proof.
  revert w. induction l as [|a l IH]; intros w Hw; [exact Hw|].
  simpl. apply IH, exec_consistent, Hw.
Qed.

(** X12: when the store's actions run one at a time, at most one position
    subscription is live, it is the one kept in [locationSubscription], and
    [isWatching] is true exactly when there is one; after [stopWatching] or
    [reset] none is live, so no position is delivered any more. *)
Theorem watcher_never_leaks :
  forall w : World,
    reachableWorld w ->
    ((active w = [] /\ isWatching (store w) = false) \/
     (exists h, active w = [h] /\ locationSubscription w = Some h /\
                isWatching (store w) = true)) /\
    active (exec DoStopWatching w) = [] /\
    active (exec DoReset w) = [] /\
    (forall subscription location,
       exec (Deliver subscription location) (exec DoStopWatching w)
       = exec DoStopWatching w /\
       exec (Deliver subscription location) (exec DoReset w)
       = exec DoReset w).
Proof.
  intros w [l ->].
  assert (Hw : watcherConsistent (execAll l initialWorld)).
  { apply execAll_consistent. left. split; reflexivity. }
  pose proof (removeSubscription_consistent _ Hw) as Hr.
  split; [exact Hw|].
  cbn [exec]. unfold unsubscribe. cbn [active].
  split; [exact Hr|]. split; [exact Hr|].
  intros subscription location. rewrite Hr. split; reflexivity.
Qed.

(** Watching is started twice in a row, with a position in between. *)
Lemma watcher_never_leaks_witness :
  let w := execAll [DoRequestPermission (Resolved granted) (Rejected None);
                    DoWatchLocation (Rejected None) (Rejected None) (Resolved tt);
                    Deliver 0 (mkLocationObject 10.7769 106.7009 None None None);
                    DoWatchLocation (Rejected None) (Rejected None) (Resolved tt)]
                   initialWorld in
  active w = [0%nat] /\ active (exec DoStopWatching w) = [].
Proof.
  intros w.
  assert (Hr : reachableWorld w) by (eexists; reflexivity).
  destruct (watcher_never_leaks w Hr) as (Hone & Hstop & _).
  split; [reflexivity | exact Hstop].
Defined.

End WatcherFacts.

(** ** The authentication store *)

Module AuthStoreFacts.

Import AuthStore.
Open Scope string_scope.

Lemma applyAuth_tracks (a : AuthUpdate) (s : AuthState) :
  flagTracksUser s -> flagTracksUser (applyAuth a s).
Proof.
  unfold flagTracksUser. intros H.
  destruct a; simpl; try reflexivity; try exact H.
  rewrite H. destruct (user s); reflexivity.
Qed.

Lemma runAuth_tracks (l : list AuthUpdate) (s : AuthState) :
  flagTracksUser s -> flagTracksUser (runAuth l s).
Proof.
  revert s. induction l as [|a l IH]; intros s H; [exact H|].
  simpl. apply IH, applyAuth_tracks, H.
Qed.

(** X13: in every reachable state of the authentication store,
    [isAuthenticated] is true exactly when [user] is not null, whatever
    happens to the tokens; and switching the layer twice gives the layer
    back. *)
Theorem auth_flag_tracks_user :
  (forall s : AuthState,
     reachableAuth s -> (isAuthenticated s = true <-> user s <> None)) /\
  (forall s : AuthState,
     applyAuth ToggleLayer (applyAuth ToggleLayer s) = s).
Proof.
  split.
  - intros s [l ->].
    assert (H : flagTracksUser (runAuth l initialAuth))
      by (apply runAuth_tracks; reflexivity).
    unfold flagTracksUser in H. rewrite H.
    destruct (user (runAuth l initialAuth)); simpl; split;
      congruence.
  - intros [u t l a ly]. destruct ly; reflexivity.
Qed.

(** The tokens are dropped while the user stays. *)
Lemma auth_flag_tracks_user_witness :
  let u := mkUser "7" "an@layers.app" "an" None None 120 2 0 USER true
                  "2026-01-05" "2026-01-05" in
  let s := runAuth [LoggedIn u (mkAuthTokens "a" "r" "bearer");
                    SetTokens None; UpdateUser (mkUserUpdates None None None
                      None (Some (Some "hi")) None None None None None None None)]
                   initialAuth in
  isAuthenticated s = true <-> user s <> None.
Proof.
  intros u s. apply (proj1 auth_flag_tracks_user). eexists. reflexivity.
Defined.

Section WithJSON.

Variable stringify : User -> string.
Variable parse : string -> option User.

Lemma setItem_same key value sto : setItem key value sto key = Some value.
Proof. unfold setItem. now rewrite String.eqb_refl. Qed.

Lemma setItem_other key value sto k :
  k <> key -> setItem key value sto k = sto k.
Proof.
  intros H. unfold setItem.
  destruct (String.eqb_spec k key); [contradiction | reflexivity].
Qed.

Lemma truthy_nonempty (v : string) : v <> EmptyString -> truthy (Some v) = true.
Proof.
  intros H. unfold truthy.
  destruct (String.eqb_spec v EmptyString); [contradiction | reflexivity].
Qed.

(** X14: after a [login] whose three writes succeed, [loadStoredAuth]
    brings back, into any store, the same user and the same access and
    refresh tokens, authenticated and no longer loading, provided the
    tokens are not empty and the user survives the JSON round trip; the
    token type comes back as "bearer" whatever it was.  With an empty
    access token nothing is restored. *)
Theorem login_then_load_restores :
  forall (u : User) (t : AuthTokens) (s0 s1 : AuthState) (sto : Storage),
    parse (stringify u) = Some u ->
    stringify u <> EmptyString ->
    refresh_token t <> EmptyString ->
    let saved := login stringify u t true true true s0 sto in
    let loaded := loadStoredAuth parse true s1 (storage saved) in
    rejected saved = false /\
    (access_token t <> EmptyString ->
     user (authState loaded) = Some u /\
     tokens (authState loaded)
     = Some {| access_token := access_token t;
               refresh_token := refresh_token t;
               token_type := "bearer" |} /\
     isAuthenticated (authState loaded) = true /\
     isLoading (authState loaded) = false) /\
    (access_token t = EmptyString ->
     authState loaded = applyAuth LoadFinished s1).
Proof.
  intros u t s0 s1 sto Hparse Hjson Hrefresh saved loaded.
  split; [reflexivity|].
  unfold loaded, saved, login, loadStoredAuth. cbn [negb storage].
  rewrite setItem_same.
  rewrite (setItem_other "user" _ _ "refresh_token") by discriminate.
  rewrite setItem_same.
  rewrite (setItem_other "user" _ _ "access_token") by discriminate.
  rewrite (setItem_other "refresh_token" _ _ "access_token") by discriminate.
  rewrite setItem_same.
  split.
  - intros Haccess.
    rewrite !truthy_nonempty by assumption. cbn [andb].
    rewrite Hparse. cbn [authState applyAuth user tokens isAuthenticated
                         isLoading].
    repeat split.
  - intros Haccess. rewrite Haccess. reflexivity.
Qed.

End WithJSON.

(** X15: a [logout] whose three deletions succeed leaves the store without
    user and tokens and the storage without the three items, so that a
    later [loadStoredAuth] restores nothing; a [logout] or [login] during
    which a storage call fails leaves the store exactly as it was, [logout]
    without reporting the failure and [login] rejecting. *)
Theorem storage_failure_keeps_auth_state :
  forall (stringify : User -> string) (parse : string -> option User)
         (s : AuthState) (sto : Storage),
    (let out := logout true true true s sto in
     user (authState out) = None /\ tokens (authState out) = None /\
     isAuthenticated (authState out) = false /\
     storage out "access_token" = None /\
     storage out "refresh_token" = None /\
     storage out "user" = None /\
     forall s1,
       authState (loadStoredAuth parse true s1 (storage out))
       = applyAuth LoadFinished s1) /\
    (forall ok1 ok2 ok3,
       ok1 && ok2 && ok3 = false ->
       authState (logout ok1 ok2 ok3 s sto) = s /\
       rejected (logout ok1 ok2 ok3 s sto) = false) /\
    (forall u t ok1 ok2 ok3,
       ok1 && ok2 && ok3 = false ->
       authState (login stringify u t ok1 ok2 ok3 s sto) = s /\
       rejected (login stringify u t ok1 ok2 ok3 s sto) = true).
Proof.
  intros stringify parse s sto. split; [|split].
  - cbv zeta. unfold logout, loadStoredAuth, deleteItem.
    cbn [negb storage authState applyAuth user tokens isAuthenticated
         String.eqb Ascii.eqb Bool.eqb truthy andb].
    repeat split.
  - intros ok1 ok2 ok3 H. unfold logout.
    destruct ok1, ok2, ok3; try discriminate H; split; reflexivity.
  - intros u t ok1 ok2 ok3 H. unfold login.
    destruct ok1, ok2, ok3; try discriminate H; split; reflexivity.
Qed.

(** The second deletion fails: the user stays logged in. *)
Lemma storage_failure_keeps_auth_state_witness :
  let u := mkUser "7" "an@layers.app" "an" None None 120 2 0 USER true
                  "2026-01-05" "2026-01-05" in
  let s := applyAuth (LoggedIn u (mkAuthTokens "a" "r" "bearer")) initialAuth in
  isAuthenticated (authState (logout true false true s emptyStorage)) = true.
Proof.
  intros u s.
  rewrite (proj1 (proj1 (proj2 (storage_failure_keeps_auth_state
             (fun _ => "{}") (fun _ => None) s emptyStorage))
             true false true eq_refl)).
  reflexivity.
Defined.

(** A user whose serialisation is read back. *)
Lemma login_then_load_restores_witness :
  let u := mkUser "7" "an@layers.app" "an" None None 120 2 0 USER true
                  "2026-01-05" "2026-01-05" in
  let saved := login (fun _ => "{}") u (mkAuthTokens "a" "r" "Bearer")
                     true true true initialAuth emptyStorage in
  tokens (authState (loadStoredAuth (fun _ => Some u) true initialAuth
                                    (storage saved)))
  = Some (mkAuthTokens "a" "r" "bearer").
Proof.
  intros u saved.
  apply (proj1 (proj2 (login_then_load_restores (fun _ => "{}")
           (fun _ => Some u) u (mkAuthTokens "a" "r" "Bearer")
           initialAuth initialAuth emptyStorage eq_refl
           ltac:(discriminate) ltac:(discriminate)))).
  discriminate.
Defined.

End AuthStoreFacts.

(** ** Regular expressions *)

Module RegexFacts.

Import Validation.
Open Scope string_scope.

Lemma append_nil_r (s : string) : s ++ EmptyString = s.
Proof. induction s as [|c s IH]; simpl; [reflexivity | now rewrite IH]. Qed.

Lemma append_eq_nil (s1 s2 : string) : s1 ++ s2 = EmptyString -> s1 = EmptyString /\ s2 = EmptyString.
Proof. destruct s1; simpl; intros H; [now split | discriminate]. Qed.

Lemma append_assoc (a b c : string) : (a ++ b) ++ c = a ++ (b ++ c).
Proof. induction a as [|ch a IH]; simpl; [reflexivity | now rewrite IH]. Qed.

Lemma length_append (a b : string) :
  String.length (a ++ b) = (String.length a + String.length b)%nat.
Proof. induction a as [|c a IH]; simpl; [reflexivity | now rewrite IH]. Qed.

Lemma Matches_Seq_inv r1 r2 s :
  Matches (Seq r1 r2) s ->
  exists s1 s2, s = s1 ++ s2 /\ Matches r1 s1 /\ Matches r2 s2.
Proof. intros H. inversion H; subst. eauto. Qed.

Lemma Matches_Alt_inv r1 r2 s :
  Matches (Alt r1 r2) s -> Matches r1 s \/ Matches r2 s.
Proof. intros H. inversion H; subst; auto. Qed.

Lemma Matches_Chr_inv p s :
  Matches (Chr p) s -> exists c, s = String c EmptyString /\ p c = true.
Proof. intros H. inversion H; subst. eauto. Qed.

Lemma Matches_Eps_inv s : Matches Eps s -> s = EmptyString.
Proof. intros H. now inversion H. Qed.

(** A non-empty match of a star begins with a non-empty match of its
    body. *)
Lemma Matches_Star_cons r x t :
  Matches (Star r) (String x t) ->
  exists s1 s2, t = s1 ++ s2 /\ Matches r (String x s1) /\ Matches (Star r) s2.
Proof.
  intros H. remember (Star r) as q eqn:Eq. remember (String x t) as w eqn:Ew.
  revert x t Ew.
  induction H as [| | | | | |r' s1 s2 H1 _ H2 IH2]; intros x t Ew;
    try discriminate.
  injection Eq as ->.
  destruct s1 as [|c1 s1]; simpl in Ew.
  - apply IH2; [reflexivity | exact Ew].
  - injection Ew as E1 E2. subst x t. eauto.
Qed.

Lemma nullable_Matches r : nullable r = true <-> Matches r EmptyString.
Proof.
  induction r as [| |p|r1 IH1 r2 IH2|r1 IH1 r2 IH2|r IH]; simpl.
  - split; [discriminate | intros H; inversion H].
  - split; [intros _; constructor | reflexivity].
  - split; [discriminate | intros H; inversion H].
  - rewrite andb_true_iff, IH1, IH2. split.
    + intros [H1 H2]. change EmptyString with (EmptyString ++ EmptyString). now constructor.
    + intros H. apply Matches_Seq_inv in H as (s1 & s2 & E & H1 & H2).
      symmetry in E. apply append_eq_nil in E as [-> ->]. now split.
  - rewrite orb_true_iff, IH1, IH2. split.
    + intros [H | H]; [now apply MAltL | now apply MAltR].
    + apply Matches_Alt_inv.
  - split; [intros _; constructor | reflexivity].
Qed.

Lemma deriv_Matches c r s : Matches (deriv c r) s <-> Matches r (String c s).
Proof.
  revert s.
  induction r as [| |p|r1 IH1 r2 IH2|r1 IH1 r2 IH2|r IH]; intros s; simpl.
  - split; intros H; inversion H.
  - split; intros H; inversion H.
  - destruct (p c) eqn:Hp; split; intros H.
    + apply Matches_Eps_inv in H as ->. now constructor.
    + apply Matches_Chr_inv in H as (c' & E & _). injection E as <- ->.
      constructor.
    + inversion H.
    + apply Matches_Chr_inv in H as (c' & E & Hc). injection E as <- ->.
      congruence.
  - assert (Hfirst : forall t, Matches (Seq (deriv c r1) r2) t ->
                               Matches (Seq r1 r2) (String c t)).
    { intros t H. apply Matches_Seq_inv in H as (s1 & s2 & -> & H1 & H2).
      change (String c (s1 ++ s2)) with (String c s1 ++ s2).
      constructor; [now apply IH1 | exact H2]. }
    assert (Hback : forall t, Matches (Seq r1 r2) (String c t) ->
                      Matches (Seq (deriv c r1) r2) t \/
                      (Matches r1 EmptyString /\ Matches r2 (String c t))).
    { intros t H. apply Matches_Seq_inv in H as (s1 & s2 & E & H1 & H2).
      destruct s1 as [|c1 s1]; simpl in E.
      - right. subst s2. now split.
      - injection E as <- ->. left. constructor; [now apply IH1 | exact H2]. }
    destruct (nullable r1) eqn:Hn.
    + split; intros H.
      * apply Matches_Alt_inv in H as [H | H]; [now apply Hfirst|].
        change (String c s) with (EmptyString ++ String c s).
        constructor; [now apply nullable_Matches | now apply IH2].
      * apply Hback in H as [H | [_ H]]; [now apply MAltL|].
        apply MAltR. now apply IH2.
    + split; intros H; [now apply Hfirst|].
      apply Hback in H as [H | [H _]]; [exact H|].
      apply nullable_Matches in H. congruence.
  - split; intros H.
    + apply Matches_Alt_inv in H as [H | H];
        [apply MAltL; now apply IH1 | apply MAltR; now apply IH2].
    + apply Matches_Alt_inv in H as [H | H];
        [apply MAltL; now apply IH1 | apply MAltR; now apply IH2].
  - split; intros H.
    + apply Matches_Seq_inv in H as (s1 & s2 & -> & H1 & H2).
      change (String c (s1 ++ s2)) with (String c s1 ++ s2).
      constructor; [now apply IH | exact H2].
    + apply Matches_Star_cons in H as (s1 & s2 & -> & H1 & H2).
      constructor; [now apply IH | exact H2].
Qed.

(** The matcher decides the language. *)
Lemma fullMatch_Matches r s : fullMatch r s = true <-> Matches r s.
Proof.
  revert r. induction s as [|c s IH]; intros r; simpl.
  - apply nullable_Matches.
  - rewrite IH. apply deriv_Matches.
Qed.

Lemma allChars_append p a b :
  allChars p (a ++ b) = allChars p a && allChars p b.
Proof.
  induction a as [|c a IH]; simpl; [reflexivity|].
  now rewrite IH, andb_assoc.
Qed.

Lemma anyCharOf_append p a b :
  anyCharOf p (a ++ b) = anyCharOf p a || anyCharOf p b.
Proof.
  induction a as [|c a IH]; simpl; [reflexivity|].
  now rewrite IH, orb_assoc.
Qed.

Lemma Matches_Star_Chr p s :
  Matches (Star (Chr p)) s <-> allChars p s = true.
Proof.
  split.
  - intros H. remember (Star (Chr p)) as q eqn:Eq.
    induction H as [| | | | | |r s1 s2 H1 _ H2 IH2]; try discriminate.
    + reflexivity.
    + injection Eq as ->.
      apply Matches_Chr_inv in H1 as (c & -> & Hc). simpl.
      rewrite Hc. now apply IH2.
  - induction s as [|c s IH]; simpl; intros H.
    + constructor.
    + apply andb_true_iff in H as [Hc Hs].
      change (String c s) with (String c EmptyString ++ s).
      constructor; [now constructor | now apply IH].
Qed.

Lemma Matches_Plus_Chr p s :
  Matches (Plus (Chr p)) s <-> s <> EmptyString /\ allChars p s = true.
Proof.
  unfold Plus. split.
  - intros H. apply Matches_Seq_inv in H as (s1 & s2 & -> & H1 & H2).
    apply Matches_Chr_inv in H1 as (c & -> & Hc).
    apply Matches_Star_Chr in H2. simpl. rewrite Hc, H2.
    split; [discriminate | reflexivity].
  - intros [Hne H]. destruct s as [|c s]; [contradiction|].
    simpl in H. apply andb_true_iff in H as [Hc Hs].
    change (String c s) with (String c EmptyString ++ s).
    constructor; [now constructor | now apply Matches_Star_Chr].
Qed.

(** [/[class]/.test(s)] looks for one character of the class. *)
Lemma test_Chr p s : test (Chr p) s = anyCharOf p s.
Proof.
  apply eq_true_iff_eq. unfold test. rewrite fullMatch_Matches. split.
  - intros H.
    apply Matches_Seq_inv in H as (a & t & -> & _ & H).
    apply Matches_Seq_inv in H as (m & b & -> & Hm & _).
    apply Matches_Chr_inv in Hm as (c & -> & Hc).
    rewrite !anyCharOf_append. simpl. rewrite Hc.
    now rewrite !orb_true_r.
  - induction s as [|c s IH]; simpl; [discriminate|].
    intros H. apply orb_true_iff in H as [Hc | Hs].
    + change (String c s) with (EmptyString ++ (String c EmptyString ++ s)).
      constructor; [constructor|].
      constructor; [now constructor|].
      apply Matches_Star_Chr. clear. induction s; simpl; auto.
    + specialize (IH Hs).
      apply Matches_Seq_inv in IH as (a & t & -> & Ha & Ht).
      change (String c (a ++ t)) with ((String c EmptyString ++ a) ++ t).
      constructor; [|exact Ht].
      constructor; [now constructor | exact Ha].
Qed.

End RegexFacts.

(** ** Form validation *)

Module ValidationFacts.

Import Validation RegexFacts.
Open Scope string_scope.

Lemma present_Some_iff (v w : string) :
  present (Some v) = Some w <-> v <> EmptyString /\ w = v.
Proof.
  destruct v; simpl; split.
  - discriminate.
  - intros [H _]. contradiction.
  - intros H. injection H as <-. split; [discriminate | reflexivity].
  - intros [_ ->]. reflexivity.
Qed.

Lemma present_None_iff (v : string) : present (Some v) = None <-> v = EmptyString.
Proof. destruct v; simpl; split; intros H; try reflexivity; discriminate. Qed.

(** A string that matches no character of [q] when all its characters are
    in a class disjoint from [q]. *)
Lemma allChars_excludes (p q : ascii -> bool) (s : string) :
  (forall c, p c = true -> q c = false) ->
  allChars p s = true -> anyCharOf q s = false.
Proof.
  intros Hpq. induction s as [|c s IH]; simpl; [reflexivity|].
  intros H. apply andb_true_iff in H as [Hc Hs].
  now rewrite (Hpq c Hc), IH.
Qed.

Lemma emailRegex_language (v : string) :
  Matches emailRegex v <->
  exists a b c,
    v = a ++ "@" ++ b ++ "." ++ c /\
    a <> EmptyString /\ b <> EmptyString /\ c <> EmptyString /\
    allChars notSpaceNorAt a = true /\
    allChars notSpaceNorAt b = true /\
    allChars notSpaceNorAt c = true.
Proof.
  unfold emailRegex. split.
  - intros H.
    apply Matches_Seq_inv in H as (a & t1 & -> & Ha & H).
    apply Matches_Seq_inv in H as (at1 & t2 & -> & Hat & H).
    apply Matches_Seq_inv in H as (b & t3 & -> & Hb & H).
    apply Matches_Seq_inv in H as (dot & c & -> & Hdot & Hc).
    apply Matches_Chr_inv in Hat as (x & -> & Hx).
    apply Matches_Chr_inv in Hdot as (y & -> & Hy).
    unfold isChar in Hx, Hy.
    apply Ascii.eqb_eq in Hx, Hy. subst x y.
    apply Matches_Plus_Chr in Ha as [Ha1 Ha2].
    apply Matches_Plus_Chr in Hb as [Hb1 Hb2].
    apply Matches_Plus_Chr in Hc as [Hc1 Hc2].
    exists a, b, c. repeat split; assumption.
  - intros (a & b & c & -> & Ha & Hb & Hc & Pa & Pb & Pc).
    constructor; [now apply Matches_Plus_Chr|].
    constructor; [now constructor|].
    constructor; [now apply Matches_Plus_Chr|].
    constructor; [now constructor|].
    now apply Matches_Plus_Chr.
Qed.

(** X16: [isEmail] accepts a value exactly when it is missing, empty, or of
    the form a@b.c with a, b and c non-empty and free of white space and
    "@"; so a non-empty value with white space anywhere is refused. *)
Theorem isEmail_accepts_exactly :
  isEmail None = None /\
  (forall v : string,
     isEmail (Some v) = None <->
     v = EmptyString \/
     exists a b c,
       v = a ++ "@" ++ b ++ "." ++ c /\
       a <> EmptyString /\ b <> EmptyString /\ c <> EmptyString /\
       allChars notSpaceNorAt a = true /\
       allChars notSpaceNorAt b = true /\
       allChars notSpaceNorAt c = true) /\
  (forall v : string,
     v <> EmptyString -> anyCharOf isSpace v = true ->
     isEmail (Some v) = Some "Enter a valid email address").
Proof.
  assert (Hchar : forall v, isEmail (Some v) = None <->
                            v = EmptyString \/ Matches emailRegex v).
  { intros v. unfold isEmail.
    destruct v as [|x v]; cbn [present isEmptyString].
    - split; [now left | reflexivity].
    - destruct (fullMatch emailRegex (String x v)) eqn:Hm; cbn [negb].
      + apply fullMatch_Matches in Hm. split; [now right | reflexivity].
      + split; [discriminate|].
        intros [H | H]; [discriminate|].
        apply fullMatch_Matches in H. congruence. }
  split; [reflexivity|]. split.
  - intros v. rewrite Hchar, emailRegex_language. reflexivity.
  - intros v Hne Hsp.
    destruct (isEmail (Some v)) as [e|] eqn:E.
    + unfold isEmail in E. destruct (present (Some v)); [|discriminate].
      destruct (negb (fullMatch emailRegex s)); [now symmetry | discriminate].
    + exfalso. apply Hchar in E as [E | E]; [contradiction|].
      apply emailRegex_language in E
        as (a & b & c & -> & _ & _ & _ & Pa & Pb & Pc).
      assert (Hno : forall x, notSpaceNorAt x = true -> isSpace x = false).
      { intros x Hx. unfold notSpaceNorAt in Hx.
        apply andb_true_iff in Hx as [Hx _].
        now apply negb_true_iff in Hx. }
      rewrite !anyCharOf_append in Hsp. simpl in Hsp.
      rewrite (allChars_excludes _ _ a Hno Pa) in Hsp.
      rewrite (allChars_excludes _ _ b Hno Pb) in Hsp.
      rewrite (allChars_excludes _ _ c Hno Pc) in Hsp.
      discriminate.
Qed.

(** An address with a space in the domain. *)
Lemma isEmail_accepts_exactly_witness :
  isEmail (Some "an@layers .app") = Some "Enter a valid email address".
Proof.
  apply (proj2 (proj2 isEmail_accepts_exactly)); [discriminate | reflexivity].
Defined.

Lemma Matches_UpTo_Chr p n s :
  Matches (UpTo n (Chr p)) s <->
  (String.length s <= n)%nat /\ allChars p s = true.
Proof.
  revert s. induction n as [|n IH]; intros s; simpl.
  - split.
    + intros H. apply Matches_Eps_inv in H as ->. split; [apply le_n | reflexivity].
    + intros [H _]. destruct s; [constructor | simpl in H; lia].
  - split.
    + intros H. apply Matches_Alt_inv in H as [H | H].
      * apply Matches_Eps_inv in H as ->. split; [simpl; lia | reflexivity].
      * apply Matches_Seq_inv in H as (s1 & s2 & -> & H1 & H2).
        apply Matches_Chr_inv in H1 as (c & -> & Hc).
        apply IH in H2 as [Hl Ha]. simpl. rewrite Hc, Ha.
        split; [lia | reflexivity].
    + intros [Hl Ha]. destruct s as [|c s]; [apply MAltL; constructor|].
      simpl in Hl, Ha. apply andb_true_iff in Ha as [Hc Ha].
      apply MAltR. change (String c s) with (String c EmptyString ++ s).
      constructor; [now constructor|]. apply IH. split; [lia | exact Ha].
Qed.

Lemma Matches_Repeat_Chr p lo extra s :
  Matches (Repeat lo extra (Chr p)) s <->
  (lo <= String.length s <= lo + extra)%nat /\ allChars p s = true.
Proof.
  revert s. induction lo as [|lo IH]; intros s; simpl.
  - rewrite Matches_UpTo_Chr. split; intros [H1 H2]; (split; [lia | exact H2]).
  - split.
    + intros H. apply Matches_Seq_inv in H as (s1 & s2 & -> & H1 & H2).
      apply Matches_Chr_inv in H1 as (c & -> & Hc).
      apply IH in H2 as [Hl Ha]. simpl. rewrite Hc, Ha.
      split; [lia | reflexivity].
    + intros [Hl Ha]. destruct s as [|c s]; [simpl in Hl; lia|].
      simpl in Hl, Ha. apply andb_true_iff in Ha as [Hc Ha].
      change (String c s) with (String c EmptyString ++ s).
      constructor; [now constructor|]. apply IH. split; [lia | exact Ha].
Qed.

(** X17: [isUsername] accepts a value exactly when it is missing, empty, or
    3 to 20 characters long with only letters, digits and underscores. *)
Theorem isUsername_accepts_exactly :
  isUsername None = None /\
  forall v : string,
    isUsername (Some v) = None <->
    v = EmptyString \/
    ((3 <= String.length v <= 20)%nat /\ allChars isWordChar v = true).
Proof.
  split; [reflexivity|].
  intros v. unfold isUsername.
  destruct v as [|x v]; cbn [present isEmptyString].
  - split; [now left | reflexivity].
  - destruct (fullMatch usernameRegex (String x v)) eqn:Hm; cbn [negb].
    + apply fullMatch_Matches in Hm. unfold usernameRegex in Hm.
      apply Matches_Repeat_Chr in Hm.
      split; [intros _; right; exact Hm | reflexivity].
    + split; [discriminate|].
      intros [H | H]; [discriminate|].
      apply (Matches_Repeat_Chr isWordChar 3 17) in H.
      apply fullMatch_Matches in H. unfold usernameRegex in Hm. congruence.
Qed.

(** *** Required and optional values *)

Lemma trimStart_empty s :
  isEmptyString (trimStart s) = allChars isSpace s.
Proof.
  induction s as [|c s IH]; simpl; [reflexivity|].
  destruct (isSpace c); simpl; [exact IH | reflexivity].
Qed.

Lemma trimEnd_empty s : isEmptyString (trimEnd s) = allChars isSpace s.
Proof.
  induction s as [|c s IH]; simpl; [reflexivity|].
  destruct (trimEnd s) eqn:E; simpl in *.
  - rewrite <- IH. destruct (isSpace c); reflexivity.
  - rewrite <- IH. now rewrite andb_false_r.
Qed.

Lemma trimStart_spaces s :
  allChars isSpace (trimStart s) = allChars isSpace s.
Proof.
  induction s as [|c s IH]; simpl; [reflexivity|].
  destruct (isSpace c) eqn:E; simpl; [exact IH | now rewrite E].
Qed.

Lemma trim_empty s : isEmptyString (trim s) = allChars isSpace s.
Proof. unfold trim. now rewrite trimEnd_empty, trimStart_spaces. Qed.

(** X18: [required] accepts a value exactly when it is a string with at
    least one character that is not white space, or a truthy value that is
    not a string, and refuses every other value with the message naming
    the field; every other rule accepts a missing value and the empty
    string, so an optional field may be left blank. *)
Theorem required_and_optional_rules :
  (forall (fieldName : string) (value : AnyValue),
     requiredAny fieldName value = None <->
     (exists s, value = StringValue s /\ allChars isSpace s = false) \/
     value = OtherValue true) /\
  (forall (fieldName : string) (value : AnyValue),
     requiredAny fieldName value <> None ->
     requiredAny fieldName value = Some (fieldName ++ " is required")) /\
  (forall (rule : Validator) (n : nat) (f m : string),
     In rule [isEmail; minLength n; maxLength n; hasUppercase; hasNumber;
              hasSpecialChar; isUsername; matchesField f m] ->
     rule None = None /\ rule (Some EmptyString) = None).
Proof.
  split; [|split].
  - intros fieldName value. unfold requiredAny.
    destruct value as [s | t]; cbn [truthy blankString].
    + rewrite trim_empty.
      destruct s as [|c s]; cbn [isEmptyString negb orb].
      * split; [discriminate|].
        intros [(s & E & H) | E]; [|discriminate E].
        injection E as <-. discriminate H.
      * destruct (allChars isSpace (String c s)) eqn:Ha.
        -- split; [discriminate|].
           intros [(w & E & H) | E]; [|discriminate E].
           injection E as <-. congruence.
        -- split; [|reflexivity].
           intros _. left. eexists. split; [reflexivity | exact Ha].
    + destruct t; cbn [negb orb].
      * split; [intros _; right; reflexivity | reflexivity].
      * split; [discriminate|].
        intros [(s & E & _) | E]; discriminate E.
  - intros fieldName value H. unfold requiredAny in *.
    destruct (negb (truthy value) || blankString value);
      [reflexivity | contradiction].
  - intros rule n f m H. simpl in H.
    repeat (destruct H as [<- | H]; [split; reflexivity|]).
    contradiction.
Qed.

(** A field of blanks is missing, a number that is not zero is present,
    and a password rule on a blank field is not violated. *)
Lemma required_and_optional_rules_witness :
  requiredAny "Email" (StringValue "   ") = Some "Email is required" /\
  requiredAny "Age" (OtherValue true) = None /\
  minLength 8 (Some EmptyString) = None.
Proof.
  destruct required_and_optional_rules as (Hreq & Hmsg & Hopt).
  split; [|split].
  - apply Hmsg. intros E. apply Hreq in E as [(v & Ev & Hv) | Ev];
      [|discriminate Ev].
    injection Ev as <-. discriminate.
  - apply Hreq. right. reflexivity.
  - apply (Hopt (minLength 8) 8%nat EmptyString EmptyString). simpl. auto.
Defined.

(** *** The form validator *)

Lemma getKey_setKey_same {A : Type} (o : Obj A) (k : string) (v : A) :
  getKey (setKey o k v) k = Some v.
Proof.
  induction o as [|[k' v'] o IH]; simpl.
  - now rewrite String.eqb_refl.
  - destruct (String.eqb k k') eqn:E; simpl; rewrite E; [reflexivity | exact IH].
Qed.

Lemma getKey_setKey_other {A : Type} (o : Obj A) (k f : string) (v : A) :
  f <> k -> getKey (setKey o k v) f = getKey o f.
Proof.
  intros Hne. induction o as [|[k' v'] o IH]; simpl.
  - destruct (String.eqb_spec f k); [contradiction | reflexivity].
  - destruct (String.eqb_spec k k') as [<- | Hk]; simpl.
    + destruct (String.eqb_spec f k); [contradiction | reflexivity].
    + destruct (String.eqb f k'); [reflexivity | exact IH].
Qed.

Lemma getKey_notin {A : Type} (o : Obj A) (k : string) :
  ~ In k (map fst o) -> getKey o k = None.
Proof.
  induction o as [|[k' v'] o IH]; simpl; intros H; [reflexivity|].
  destruct (String.eqb_spec k k') as [-> | Hk]; [exfalso; auto|].
  apply IH. intros Hin. apply H. now right.
Qed.

Lemma getKey_In {A : Type} (o : Obj A) (k : string) (v : A) :
  NoDup (map fst o) -> In (k, v) o -> getKey o k = Some v.
Proof.
  induction o as [|[k' v'] o IH]; simpl; intros Hnd Hin; [contradiction|].
  inversion Hnd as [|x l Hx Hl]; subst.
  destruct Hin as [E | Hin].
  - injection E as -> ->. now rewrite String.eqb_refl.
  - destruct (String.eqb_spec k k') as [-> | Hk]; [|now apply IH].
    exfalso. apply Hx. change k' with (fst (k', v)). now apply in_map.
Qed.

Lemma getKey_Some_In {A : Type} (o : Obj A) (k : string) (v : A) :
  getKey o k = Some v -> In (k, v) o.
Proof.
  induction o as [|[k' v'] o IH]; simpl; [discriminate|].
  destruct (String.eqb_spec k k') as [-> | Hk].
  - intros E. injection E as ->. now left.
  - intros E. right. now apply IH.
Qed.

Lemma getKey_all_None {A : Type} (o : Obj A) :
  (forall k, getKey o k = None) <-> o = [].
Proof.
  split; [|intros -> k; reflexivity].
  destruct o as [|[k v] o]; [reflexivity|].
  intros H. specialize (H k). simpl in H.
  rewrite String.eqb_refl in H. discriminate.
Qed.

(** The loop over the rules, from any errors collected so far. *)
Lemma validate_fold (rules : Obj (list Validator)) (values : Obj string)
    (acc : Obj string) (f : string) :
  NoDup (map fst rules) ->
  getKey
    (fold_left
       (fun errors entry =>
          match firstError (snd entry) (getKey values (fst entry)) with
          | Some e => setKey errors (fst entry) e
          | None => errors
          end) rules acc) f
  = match getKey rules f with
    | Some validators =>
        match firstError validators (getKey values f) with
        | Some e => Some e
        | None => getKey acc f
        end
    | None => getKey acc f
    end.
Proof.
  revert acc. induction rules as [|[k vs] rules IH]; intros acc Hnd.
  - reflexivity.
  - inversion Hnd as [|x l Hx Hl]; subst.
    cbn [fold_left fst snd]. rewrite IH by exact Hl.
    cbn [getKey]. destruct (String.eqb_spec f k) as [-> | Hne].
    + rewrite (getKey_notin rules k Hx).
      destruct (firstError vs (getKey values k)) as [e|];
        [apply getKey_setKey_same | reflexivity].
    + assert (Hacc : getKey
                (match firstError vs (getKey values k) with
                 | Some e => setKey acc k e
                 | None => acc
                 end) f = getKey acc f).
      { destruct (firstError vs (getKey values k));
          [now apply getKey_setKey_other | reflexivity]. }
      rewrite Hacc. reflexivity.
Qed.

Lemma firstError_Some_iff (validators : list Validator) (value : Value)
    (e : string) :
  firstError validators value = Some e <->
  exists passed rule rest,
    validators = (passed ++ rule :: rest)%list /\
    (forall r, In r passed -> present (r value) = None) /\
    present (rule value) = Some e.
Proof.
  induction validators as [|v vs IH]; simpl.
  - split; [discriminate|].
    intros (p & r & t & E & _). destruct p; discriminate.
  - destruct (present (v value)) as [e'|] eqn:Hv.
    + split.
      * intros E. injection E as ->.
        exists [], v, vs. repeat split; [intros r [] | exact Hv].
      * intros (p & r & t & E & Hp & Hr).
        destruct p as [|v' p]; simpl in E; injection E as Ev Evs.
        -- rewrite <- Ev in Hr. congruence.
        -- rewrite (Hp v) in Hv; [discriminate | left; now symmetry].
    + rewrite IH. split.
      * intros (p & r & t & -> & Hp & Hr).
        exists (v :: p), r, t. repeat split; [|exact Hr].
        intros r' [<- | Hin]; [exact Hv | now apply Hp].
      * intros (p & r & t & E & Hp & Hr).
        destruct p as [|v' p]; simpl in E; injection E as Ev Evs.
        -- rewrite <- Ev in Hr. congruence.
        -- exists p, r, t. repeat split; [exact Evs| |exact Hr].
           intros r' Hin. apply Hp. now right.
Qed.

(** X19: for rules with distinct field names, [validateForm] reports for
    each field the message of the first of its rules that fails on the
    field's value (a missing value being validated as undefined), and
    nothing for fields whose rules all pass or that have no rules; so
    [hasErrors] is false exactly when every rule of every field passes. *)
Theorem validateForm_reports_first_errors :
  forall (rules : Obj (list Validator)) (values : Obj string),
    NoDup (map fst rules) ->
    (forall f : string,
       getKey (validateForm rules values) f =
       match getKey rules f with
       | Some validators => firstError validators (getKey values f)
       | None => None
       end) /\
    (forall (validators : list Validator) (value : Value) (e : string),
       firstError validators value = Some e <->
       exists passed rule rest,
         validators = (passed ++ rule :: rest)%list /\
         (forall r, In r passed -> present (r value) = None) /\
         present (rule value) = Some e) /\
    (hasErrors (validateForm rules values) = false <->
     forall f validators,
       In (f, validators) rules ->
       firstError validators (getKey values f) = None).
Proof.
  intros rules values Hnd.
  assert (Hget : forall f : string,
            getKey (validateForm rules values) f =
            match getKey rules f with
            | Some validators => firstError validators (getKey values f)
            | None => None
            end).
  { intros f. unfold validateForm. rewrite validate_fold by exact Hnd.
    destruct (getKey rules f) as [vs|]; [|reflexivity].
    destruct (firstError vs (getKey values f)); reflexivity. }
  split; [exact Hget|]. split; [exact firstError_Some_iff|].
  assert (Hempty : hasErrors (validateForm rules values) = false <->
                   validateForm rules values = []).
  { unfold hasErrors. destruct (validateForm rules values); simpl;
      split; intros H; try reflexivity; discriminate. }
  rewrite Hempty, <- getKey_all_None. split.
  - intros H f vs Hin. specialize (H f). rewrite Hget in H.
    now rewrite (getKey_In rules f vs Hnd Hin) in H.
  - intros H f. rewrite Hget.
    destruct (getKey rules f) as [vs|] eqn:E; [|reflexivity].
    apply (H f). now apply getKey_Some_In.
Qed.

(** The sign-up form with a malformed address and a short password. *)
Lemma validateForm_reports_first_errors_witness :
  let rules := [("email", [required "Email"; isEmail]);
                ("password", [required "Password"; minLength 8; hasNumber])] in
  let values := [("email", "test@"); ("password", "abc")] in
  getKey (validateForm rules values) "password"
  = firstError [required "Password"; minLength 8; hasNumber] (Some "abc").
Proof.
  intros rules values.
  apply (proj1 (validateForm_reports_first_errors rules values
                  ltac:(repeat constructor; simpl; intuition discriminate))
               "password").
Defined.

(** *** Password strength *)

Lemma bump_mono (b b' : bool) (n n' : nat) :
  (b = true -> b' = true) -> (n <= n')%nat -> (bump b n <= bump b' n')%nat.
Proof.
  intros Hb Hn. unfold bump.
  destruct b, b'; lia || (specialize (Hb eq_refl); discriminate).
Qed.

Lemma test_append_l p a b :
  test (Chr p) a = true -> test (Chr p) (a ++ b) = true.
Proof.
  rewrite !test_Chr, anyCharOf_append. intros ->. reflexivity.
Qed.

Lemma test_append_r p a b :
  test (Chr p) b = true -> test (Chr p) (a ++ b) = true.
Proof.
  rewrite !test_Chr, anyCharOf_append. intros ->. apply orb_true_r.
Qed.

Lemma rawScore_append_l (p q : string) :
  (rawScore p <= rawScore (p ++ q))%nat.
Proof.
  unfold rawScore.
  repeat apply bump_mono; try apply test_append_l; try apply le_n.
  - intros H. apply andb_true_iff in H as [H1 H2].
    now rewrite !test_append_l.
  - rewrite length_append, !Nat.leb_le. lia.
  - rewrite length_append, !Nat.leb_le. lia.
Qed.

Lemma rawScore_append_r (p q : string) :
  (rawScore q <= rawScore (p ++ q))%nat.
Proof.
  unfold rawScore.
  repeat apply bump_mono; try apply test_append_r; try apply le_n.
  - intros H. apply andb_true_iff in H as [H1 H2].
    now rewrite !test_append_r.
  - rewrite length_append, !Nat.leb_le. lia.
  - rewrite length_append, !Nat.leb_le. lia.
Qed.

Lemma score_of_rawScore (p : string) :
  score (getPasswordStrength p) = Nat.max 1 (Nat.min 4 (rawScore p)).
Proof.
  unfold getPasswordStrength.
  destruct (Nat.leb_spec (rawScore p) 1); [cbn [score]; lia|].
  destruct (Nat.leb_spec (rawScore p) 2); [cbn [score]; lia|].
  destruct (Nat.leb_spec (rawScore p) 3); cbn [score]; lia.
Qed.

Lemma strength_strong_iff (p : string) :
  strength (getPasswordStrength p) = strong <-> (4 <= rawScore p)%nat.
Proof.
  unfold getPasswordStrength.
  destruct (Nat.leb_spec (rawScore p) 1);
    [cbn [strength]; split; [discriminate | lia]|].
  destruct (Nat.leb_spec (rawScore p) 2);
    [cbn [strength]; split; [discriminate | lia]|].
  destruct (Nat.leb_spec (rawScore p) 3); cbn [strength]; split;
    try discriminate; try lia; reflexivity.
Qed.

Lemma bump_le (b : bool) (n : nat) : (bump b n <= S n)%nat.
Proof. destruct b; simpl; lia. Qed.

(** X20: the reported password score lies between 1 and 4 and never drops
    when characters are added in front or behind; a password shorter than
    8 characters is never rated strong. *)
Theorem password_strength_monotone :
  (forall p : string, (1 <= score (getPasswordStrength p) <= 4)%nat) /\
  (forall p q : string,
     (score (getPasswordStrength p) <= score (getPasswordStrength (p ++ q)))%nat /\
     (score (getPasswordStrength q) <= score (getPasswordStrength (p ++ q)))%nat) /\
  (forall p : string,
     (String.length p < 8)%nat -> strength (getPasswordStrength p) <> strong).
Proof.
  split; [|split].
  - intros p. rewrite score_of_rawScore. lia.
  - intros p q. rewrite !score_of_rawScore.
    pose proof (rawScore_append_l p q). pose proof (rawScore_append_r p q).
    lia.
  - intros p Hlen Hs. apply strength_strong_iff in Hs.
    unfold rawScore in Hs.
    replace (8 <=? String.length p)%nat with false in Hs
      by (symmetry; apply Nat.leb_gt; lia).
    replace (12 <=? String.length p)%nat with false in Hs
      by (symmetry; apply Nat.leb_gt; lia).
    cbn [bump] in Hs.
    pose proof (bump_le (test (Chr notAlphaNum) p)
                  (bump (test (Chr isDigit) p)
                     (bump (test (Chr isUpper) p && test (Chr isLower) p) 0))).
    pose proof (bump_le (test (Chr isDigit) p)
                  (bump (test (Chr isUpper) p && test (Chr isLower) p) 0)).
    pose proof (bump_le (test (Chr isUpper) p && test (Chr isLower) p) 0).
    lia.
Qed.

(** Seven characters of four kinds. *)
Lemma password_strength_monotone_witness :
  strength (getPasswordStrength "aB3$xyz") <> strong.
Proof.
  apply (proj2 (proj2 password_strength_monotone)). simpl. lia.
Defined.

End ValidationFacts.

(** ** The error handler *)

Module ErrorHandlerFacts.

Import ErrorHandler.
Open Scope string_scope.

Lemma parseError_unretryable_iff (e : RawError) :
  retryable (parseError e) = false <-> refused e.
Proof.
  unfold parseError, refused.
  destruct (err_response e) as [r|].
  - destruct (Z.eqb_spec (status r) 401) as [E1 | N1];
      [cbn [retryable]; split; [intros _; eauto | reflexivity]|].
    destruct (Z.eqb_spec (status r) 403) as [E3 | N3];
      [cbn [retryable]; split; [intros _; eauto | reflexivity]|].
    assert (Hno : ~ exists r0, Some r = Some r0 /\
                    (status r0 = 401%Z \/ status r0 = 403%Z)).
    { intros (r0 & E & H). injection E as <-. destruct H; contradiction. }
    destruct (status r =? 422)%Z; [cbn [retryable]; split; [discriminate | tauto]|].
    destruct (status r =? 429)%Z; [cbn [retryable]; split; [discriminate | tauto]|].
    destruct (500 <=? status r)%Z; cbn [retryable]; split;
      try discriminate; tauto.
  - assert (Hno : ~ exists r0, @None Response = Some r0 /\
                    (status r0 = 401%Z \/ status r0 = 403%Z)).
    { intros (r0 & E & _). discriminate. }
    destruct (err_request e || messageIncludes "Network" e);
      [cbn [retryable]; split; [discriminate | tauto]|].
    destruct (match err_code e with
              | Some c => String.eqb c "ECONNABORTED"
              | None => false
              end || messageIncludes "timeout" e);
      [cbn [retryable]; split; [discriminate | tauto]|].
    destruct (messageIncludes "Location" e || messageIncludes "permission" e);
      cbn [retryable]; split; try discriminate; tauto.
Qed.

Lemma parseError_auth_iff (e : RawError) :
  type (parseError e) = AUTH <-> refused e.
Proof.
  unfold parseError, refused.
  destruct (err_response e) as [r|].
  - destruct (Z.eqb_spec (status r) 401) as [E1 | N1];
      [cbn [type]; split; [intros _; eauto | reflexivity]|].
    destruct (Z.eqb_spec (status r) 403) as [E3 | N3];
      [cbn [type]; split; [intros _; eauto | reflexivity]|].
    assert (Hno : ~ exists r0, Some r = Some r0 /\
                    (status r0 = 401%Z \/ status r0 = 403%Z)).
    { intros (r0 & E & H). injection E as <-. destruct H; contradiction. }
    destruct (status r =? 422)%Z; [cbn [type]; split; [discriminate | tauto]|].
    destruct (status r =? 429)%Z; [cbn [type]; split; [discriminate | tauto]|].
    destruct (500 <=? status r)%Z; cbn [type]; split; try discriminate; tauto.
  - assert (Hno : ~ exists r0, @None Response = Some r0 /\
                    (status r0 = 401%Z \/ status r0 = 403%Z)).
    { intros (r0 & E & _). discriminate. }
    destruct (err_request e || messageIncludes "Network" e);
      [cbn [type]; split; [discriminate | tauto]|].
    destruct (match err_code e with
              | Some c => String.eqb c "ECONNABORTED"
              | None => false
              end || messageIncludes "timeout" e);
      [cbn [type]; split; [discriminate | tauto]|].
    destruct (messageIncludes "Location" e || messageIncludes "permission" e);
      cbn [type]; split; try discriminate; tauto.
Qed.

(** X21: [parseError] marks an error as not retryable exactly when it
    carries a response with status 401 or 403, which are also exactly the
    errors of type AUTH; so the alert built from a parsed error offers
    "Retry" exactly when a retry callback is given and the error is not
    such a refusal. *)
Theorem parseError_retry_policy :
  forall (e : RawError) (hasOnRetry : bool),
    let refusal :=
      exists r, err_response e = Some r /\
                (status r = 401%Z \/ status r = 403%Z) in
    (retryable (parseError e) = false <-> refusal) /\
    (type (parseError e) = AUTH <-> refusal) /\
    (In "Retry" (showErrorAlert (parseError e) hasOnRetry) <->
     hasOnRetry = true /\ ~ refusal) /\
    In "OK" (showErrorAlert (parseError e) hasOnRetry).
Proof.
  intros e hasOnRetry refusal.
  pose proof (parseError_unretryable_iff e) as Hr.
  pose proof (parseError_auth_iff e) as Ha.
  fold (refused e) in refusal. subst refusal.
  split; [exact Hr|]. split; [exact Ha|].
  assert (Hok : In "OK" (showErrorAlert (parseError e) hasOnRetry)).
  { unfold showErrorAlert.
    destruct (retryable (parseError e) && hasOnRetry); now left. }
  split; [|exact Hok].
  unfold showErrorAlert.
  destruct (retryable (parseError e)) eqn:E; destruct hasOnRetry; cbn [andb].
  - split; [intros _ | intros _; right; now left].
    split; [reflexivity|]. intros H. apply Hr in H. discriminate.
  - split; [intros [H | []]; discriminate | intros [H _]; discriminate].
  - split; [intros [H | []]; discriminate|].
    intros [_ H]. exfalso. apply H, Hr. reflexivity.
  - split; [intros [H | []]; discriminate | intros [H _]; discriminate].
Qed.

(** X22: [parseError] looks at the response first and at the request
    second: with a response the type is AUTH, VALIDATION or SERVER and the
    status code is reported, whatever the message says; without a response
    but with a request the error is reported as a missing connection, also
    when its code is ECONNABORTED or its message mentions a timeout; and
    the type STORAGE is never produced. *)
Theorem parseError_precedence :
  forall e : RawError,
    (forall r, err_response e = Some r ->
       (type (parseError e) = AUTH \/ type (parseError e) = VALIDATION \/
        type (parseError e) = SERVER) /\
       statusCode (parseError e) = Some (status r)) /\
    (err_response e = None ->
     statusCode (parseError e) = None /\
     (err_request e = true ->
      type (parseError e) = NETWORK /\
      message (parseError e)
      = "No internet connection. Check your network and try again.")) /\
    type (parseError e) <> STORAGE.
Proof.
  intros e. unfold parseError.
  destruct (err_response e) as [r|].
  - split; [|split; [discriminate|]].
    + intros r0 E. injection E as <-.
      destruct (status r =? 401)%Z; [cbn [type statusCode]; auto|].
      destruct (status r =? 403)%Z; [cbn [type statusCode]; auto|].
      destruct (status r =? 422)%Z; [cbn [type statusCode]; auto|].
      destruct (status r =? 429)%Z; [cbn [type statusCode]; auto|].
      destruct (500 <=? status r)%Z; cbn [type statusCode]; auto.
    + destruct (status r =? 401)%Z; [cbn [type]; discriminate|].
      destruct (status r =? 403)%Z; [cbn [type]; discriminate|].
      destruct (status r =? 422)%Z; [cbn [type]; discriminate|].
      destruct (status r =? 429)%Z; [cbn [type]; discriminate|].
      destruct (500 <=? status r)%Z; cbn [type]; discriminate.
  - split; [discriminate|].
    destruct (err_request e) eqn:Hreq; cbn [orb].
    + cbn [type statusCode message]. repeat split; discriminate.
    + destruct (messageIncludes "Network" e);
        [cbn [type statusCode]; repeat split; discriminate|].
      destruct (match err_code e with
                | Some c => String.eqb c "ECONNABORTED"
                | None => false
                end || messageIncludes "timeout" e);
        [cbn [type statusCode]; repeat split; discriminate|].
      destruct (messageIncludes "Location" e || messageIncludes "permission" e);
        cbn [type statusCode]; repeat split; discriminate.
Qed.

(** A request that timed out after it was sent. *)
Lemma parseError_precedence_witness :
  message (parseError (mkRawError None true
                         (Some "timeout of 15000ms exceeded")
                         (Some "ECONNABORTED") "AxiosError"))
  = "No internet connection. Check your network and try again.".
Proof.
  apply (proj2 (proj1 (proj2 (parseError_precedence
           (mkRawError None true (Some "timeout of 15000ms exceeded")
                       (Some "ECONNABORTED") "AxiosError"))) eq_refl) eq_refl).
Defined.

End ErrorHandlerFacts.

(** ** The token refresh *)

Module TokenRefreshFacts.

Import TokenRefresh.

Lemma step_consistent (ev : Event) (st : Refresher) :
  refresherConsistent st -> refresherConsistent (step ev st).
Proof.
  unfold refresherConsistent. intros H.
  destruct ev; cbn [step].
  - destruct (isRefreshing st) eqn:E; cbn [isRefreshing phase].
    + split; [intros _; now apply H | reflexivity].
    + split; [discriminate | reflexivity].
  - destruct (phase st) eqn:E; try (rewrite E; exact H).
    cbn [isRefreshing phase].
    split; [intros C; discriminate C | intros C; now contradiction C].
  - destruct (phase st) eqn:E; try (rewrite E; exact H).
    cbn [isRefreshing phase processQueue].
    split; [intros _; discriminate | intros _; apply H; discriminate].
  - destruct (phase st) eqn:E; try (rewrite E; exact H).
    cbn [isRefreshing phase].
    split; [intros C; discriminate C | intros C; now contradiction C].
Qed.

Lemma steps_consistent (l : list Event) (st : Refresher) :
  refresherConsistent st -> refresherConsistent (steps l st).
Proof.
  revert st. induction l as [|ev l IH]; intros st H; [exact H|].
  simpl. apply IH, step_consistent, H.
Qed.

(** X23: in the token refresh of the API client, [isRefreshing] is set
    exactly while a refresh is under way.  A refresh that succeeds leaves
    the queue empty, with every waiting request resolved with the new
    token; one that fails rejects every waiting request.  But a request
    answered 401 while the stored tokens are being deleted after a failure
    is queued behind the already processed queue: when the flag is cleared
    it still waits, unsettled. *)
Theorem refresh_queue_settlement :
  forall st : Refresher,
    reachableRefresher st ->
    (isRefreshing st = true <-> phase st <> Idle) /\
    (phase st = Fetching ->
     forall token,
       let done := step (RefreshSucceeded token) st in
       isRefreshing done = false /\ failedQueue done = [] /\
       forall request, In request (failedQueue st) ->
                       In (request, ResolvedWith token) (settled done)) /\
    (phase st = Fetching ->
     let done := steps [RefreshFailed; CleanupFinished] st in
     isRefreshing done = false /\ failedQueue done = [] /\
     forall request, In request (failedQueue st) ->
                     In (request, RejectedWith) (settled done)) /\
    (phase st = Cleaning ->
     forall request,
       let done := steps [Unauthorized request; CleanupFinished] st in
       isRefreshing done = false /\ phase done = Idle /\
       In request (failedQueue done) /\ settled done = settled st).
Proof.
  intros st [l ->].
  assert (Hc : refresherConsistent (steps l initialRefresher)).
  { apply steps_consistent. split; [intros C; discriminate C | intros C; now contradiction C]. }
  set (st := steps l initialRefresher) in *.
  split; [exact Hc|]. split; [|split].
  - intros Hp token. cbn [step]. rewrite Hp.
    cbn [isRefreshing failedQueue settled processQueue].
    repeat split. intros request Hin. apply in_or_app. right.
    apply (in_map (fun request => (request, ResolvedWith token))). exact Hin.
  - intros Hp. cbn [steps fold_left step]. rewrite Hp.
    cbn [phase isRefreshing failedQueue settled processQueue].
    repeat split. intros request Hin. apply in_or_app. right.
    apply (in_map (fun request => (request, RejectedWith))). exact Hin.
  - intros Hp request. cbn [steps fold_left step].
    assert (Hr : isRefreshing st = true) by (apply Hc; rewrite Hp; discriminate).
    rewrite Hr. cbn [phase]. rewrite Hp.
    cbn [isRefreshing phase failedQueue settled].
    repeat split. apply in_or_app. right. now left.
Qed.

(** Two requests wait for a refresh that fails; a third is refused while
    the tokens are being deleted. *)
Lemma refresh_queue_settlement_witness :
  let st := steps [Unauthorized 1; Unauthorized 2; Unauthorized 3;
                   RefreshFailed] initialRefresher in
  let done := steps [Unauthorized 4; CleanupFinished] st in
  isRefreshing done = false /\ phase done = Idle /\
  In 4%nat (failedQueue done) /\ settled done = settled st.
Proof.
  intros st done.
  assert (Hr : reachableRefresher st) by (eexists; reflexivity).
  apply (proj2 (proj2 (proj2 (refresh_queue_settlement st Hr))) eq_refl 4%nat).
Defined.

End TokenRefreshFacts.
